(** * Mutation engines of the kanban board and the tree view

  A shallow embedding of the state transformers found in
  [kanban-board/src/KanbanBoard.tsx] and [tree-view/src/TreeView.tsx].
  Every React handler [setX (prev => updated)] is read as the function
  from the previous snapshot to the next one; a handler that returns
  before calling the setter leaves the snapshot as it was.  Identifiers
  minted by [generateId] are inputs of the handlers that use them. *)

From Stdlib Require Import String List Arith Bool Lia Permutation.
Import ListNotations.
Open Scope string_scope.
Open Scope list_scope.

(** ** JavaScript array primitives used by the handlers *)

Section Arrays.
Context {A : Type}.

(** [Array.prototype.findIndex]; [None] stands for the result [-1]. *)
Fixpoint findIndex (p : A -> bool) (l : list A) : option nat :=
  match l with
  | [] => None
  | x :: rest => if p x then Some 0 else option_map S (findIndex p rest)
  end.

(** [Array.prototype.splice (start, deleteCount, ...items)] for a start
    that is not negative: the start is clamped to the length, which
    [firstn] and [skipn] do by themselves. *)
Definition splice (start deleteCount : nat) (items l : list A) : list A :=
  firstn start l ++ items ++ skipn (start + deleteCount) l.

(** [Array.prototype.filter] with the two-argument callback
    [(element, index) => ...]. *)
Fixpoint filteri_from (i : nat) (p : A -> nat -> bool) (l : list A) : list A :=
  match l with
  | [] => []
  | x :: rest =>
      if p x i then x :: filteri_from (S i) p rest
      else filteri_from (S i) p rest
  end.

Definition filteri (p : A -> nat -> bool) (l : list A) : list A :=
  filteri_from 0 p l.

(** [l.filter (p).map (f)] in one pass, the form a function that recurses
    through [f] into the elements of [l] needs. *)
Definition filterThenMap {B : Type} (p : A -> bool) (f : A -> B)
  : list A -> list B :=
  fix go (l : list A) : list B :=
    match l with
    | [] => []
    | x :: rest => if p x then f x :: go rest else go rest
    end.
End Arrays.

(** JavaScript truthiness of an optional boolean field. *)
Definition truthy (b : option bool) : bool :=
  match b with Some true => true | _ => false end.

(** ** Kanban board *)

Module Kanban.

Module Card.
Record t : Type := mk { id : string; title : string }.
End Card.

Module Column.
Record t : Type := mk { id : string; title : string; cards : list Card.t }.
End Column.

Abbreviation Card := Card.t.
Abbreviation Column := Column.t.

(** [{ ...col, cards: cs }] *)
Definition with_cards (col : Column) (cs : list Card) : Column :=
  Column.mk (Column.id col) (Column.title col) cs.

(** [{ ...card, title: t }] *)
Definition with_title (card : Card) (t : string) : Card :=
  Card.mk (Card.id card) t.

(** [handleAddCard]; [newId] is the value of [generateId ()]. *)
Definition handleAddCard (prev : list Column) (newId columnId title : string)
  : list Column :=
  let newCard := Card.mk newId title in
  map (fun col =>
         if Column.id col =? columnId
         then with_cards col (Column.cards col ++ [newCard])
         else col) prev.

Definition handleEditCard (prev : list Column) (cardId newTitle : string)
  : list Column :=
  map (fun col =>
         with_cards col
           (map (fun card =>
                   if Card.id card =? cardId then with_title card newTitle
                   else card) (Column.cards col))) prev.

Definition handleDeleteCard (prev : list Column) (cardId : string)
  : list Column :=
  map (fun col =>
         with_cards col
           (filter (fun card => negb (Card.id card =? cardId))
                   (Column.cards col))) prev.

(** The loop [for (const col of columns) { index = col.cards.findIndex
    (c => c.id === x); if (index !== -1) { ...; break; } }], which
    [handleDragEnd] runs once for [active.id] and once for [over.id]. *)
Fixpoint locate (columns : list Column) (x : string) : option (Column * nat) :=
  match columns with
  | [] => None
  | col :: rest =>
      match findIndex (fun c => Card.id c =? x) (Column.cards col) with
      | Some index => Some (col, index)
      | None => locate rest x
      end
  end.

(** [columns.find (col => col.id === x)] *)
Definition findColumn (columns : list Column) (x : string) : option Column :=
  find (fun col => Column.id col =? x) columns.

(** [handleDragEnd]: [active] is [event.active.id], [over] is
    [event.over?.id], absent when the card is dropped outside every
    droppable.  The setters read [prev], the snapshot [columns] of the
    render that installed the handler. *)
Definition handleDragEnd (columns : list Column) (active : string)
           (over : option string) : list Column :=
  match over with
  | None => columns
  | Some overId =>
    if active =? overId then columns else
    match locate columns active with
    | None => columns
    | Some (sourceColumn, sourceIndex) =>
      match nth_error (Column.cards sourceColumn) sourceIndex with
      | None => columns
      | Some card =>
        match findColumn columns overId with
        | Some targetColumn =>
            if Column.id targetColumn =? Column.id sourceColumn then columns
            else
              map (fun col =>
                     if Column.id col =? Column.id sourceColumn then
                       with_cards col
                         (filter (fun c => negb (Card.id c =? active))
                                 (Column.cards col))
                     else if Column.id col =? Column.id targetColumn then
                       with_cards col (Column.cards col ++ [card])
                     else col) columns
        | None =>
            match locate columns overId with
            | None => columns
            | Some (targetCol, targetCardIndex) =>
                let targetColumnId := Column.id targetCol in
                if Column.id sourceColumn =? targetColumnId then
                  if (targetCardIndex =? sourceIndex)%nat then columns
                  else
                    let newCards :=
                      splice sourceIndex 1 [] (Column.cards sourceColumn) in
                    let adjustedIndex :=
                      if (sourceIndex <? targetCardIndex)%nat
                      then targetCardIndex else targetCardIndex in
                    let newCards := splice adjustedIndex 0 [card] newCards in
                    map (fun col =>
                           if Column.id col =? Column.id sourceColumn
                           then with_cards col newCards else col) columns
                else
                  map (fun col =>
                         if Column.id col =? Column.id sourceColumn then
                           with_cards col
                             (filter (fun c => negb (Card.id c =? active))
                                     (Column.cards col))
                         else if Column.id col =? targetColumnId then
                           with_cards col
                             (splice targetCardIndex 0 [card]
                                     (Column.cards col))
                         else col) columns
            end
        end
      end
    end
  end.

(** Every card id of a snapshot, column after column. *)
Definition cardIds (columns : list Column) : list string :=
  flat_map (fun col => map Card.id (Column.cards col)) columns.

Definition columnIds (columns : list Column) : list string :=
  map Column.id columns.

(** What a column is apart from its cards. *)
Definition header (col : Column) : string * string :=
  (Column.id col, Column.title col).

Definition cardCount (columns : list Column) : nat :=
  length (cardIds columns).

Definition allCards (columns : list Column) : list Card :=
  flat_map Column.cards columns.

(** The card [handleDragEnd] picks up for [active.id]: [sourceColumn],
    [sourceIndex] and [card]. *)
Definition picked (columns : list Column) (cardId : string)
           (src : Column) (i : nat) (card : Card) : Prop :=
  locate columns cardId = Some (src, i) /\
  nth_error (Column.cards src) i = Some card.

(** The drop-on-column rule as the specification words it: the card ends
    up last in the column it is dropped on, whichever column it came from,
    and a source column that is another column no longer holds it. *)
Definition appendsToColumn (columns : list Column) (cardId columnId : string)
  : Prop :=
  forall src i card tgt,
    picked columns cardId src i card ->
    findColumn columns columnId = Some tgt ->
    let after := handleDragEnd columns cardId (Some columnId) in
    (exists (tgt' : Column) (others : list Card),
        findColumn after columnId = Some tgt' /\
        Column.cards tgt' = others ++ [card]) /\
    (Column.id src <> columnId ->
     exists src',
       findColumn after (Column.id src) = Some src' /\
       ~ In cardId (map Card.id (Column.cards src'))).

(** The snapshot invariant of the data model. *)
Definition uniqueIds (columns : list Column) : Prop :=
  NoDup (columnIds columns) /\ NoDup (cardIds columns).

(** The user actions the board reacts to, with the id [generateId] mints
    for a new card. *)
Inductive Action : Type :=
| AddCard (newId columnId title : string)
| EditCard (cardId newTitle : string)
| DeleteCard (cardId : string)
| DragEnd (active : string) (over : option string).

Definition step (columns : list Column) (a : Action) : list Column :=
  match a with
  | AddCard newId columnId title => handleAddCard columns newId columnId title
  | EditCard cardId newTitle => handleEditCard columns cardId newTitle
  | DeleteCard cardId => handleDeleteCard columns cardId
  | DragEnd active over => handleDragEnd columns active over
  end.

Definition run (columns : list Column) (actions : list Action) : list Column :=
  fold_left step actions columns.

(** [generateId] is taken to return an id no card has at that time. *)
Definition mintsFresh (columns : list Column) (a : Action) : Prop :=
  match a with
  | AddCard newId _ _ => ~ In newId (cardIds columns)
  | _ => True
  end.

Fixpoint allFresh (columns : list Column) (actions : list Action) : Prop :=
  match actions with
  | [] => True
  | a :: rest => mintsFresh columns a /\ allFresh (step columns a) rest
  end.

(** The loop of [handleDragStart]: the first card, column after column,
    that [column.cards.find (c => c.id === active.id)] returns. *)
Fixpoint findActiveCard (columns : list Column) (active : string)
  : option Card :=
  match columns with
  | [] => None
  | column :: rest =>
      match find (fun c => Card.id c =? active) (Column.cards column) with
      | Some card => Some card
      | None => findActiveCard rest active
      end
  end.

(** [handleDragStart] as a function on the state [activeCard], the card
    the drag overlay shows: it is set when a card is found and left as it
    was otherwise. *)
Definition handleDragStart (columns : list Column) (activeCard : option Card)
           (active : string) : option Card :=
  match findActiveCard columns active with
  | Some card => Some card
  | None => activeCard
  end.

End Kanban.

(** ** Tree view *)

(** What a handler does: it returns the next snapshot, or an access to a
    property of [undefined] throws a [TypeError]. *)
Inductive outcome (A : Type) : Type :=
| Returned (a : A)
| Thrown.
Arguments Returned {A} a.
Arguments Thrown {A}.

Definition bind {A B : Type} (m : outcome A) (k : A -> outcome B) : outcome B :=
  match m with Returned a => k a | Thrown => Thrown end.

Notation "x <- m ;; k" := (bind m (fun x => k))
  (at level 61, m at next level, right associativity).

(** [try { m } catch (error) { handler }] *)
Definition tryCatch {A : Type} (m handler : outcome A) : outcome A :=
  match m with Returned a => Returned a | Thrown => handler end.

(** [arr[0]], to be dereferenced at once. *)
Definition first {A : Type} (arr : list A) : outcome A :=
  match arr with x :: _ => Returned x | [] => Thrown end.

Module Tree.

#[local] Set Warnings "-register-all".

(** [types.ts]: the last four fields are optional. *)
Inductive TreeNode : Type := mkNode {
  id : string;
  name : string;
  children : option (list TreeNode);
  isExpanded : option bool;
  isLoading : option bool;
  hasLoaded : option bool
}.

(** Object spreads [{ ...node, field: v }]. *)
Definition with_name (node : TreeNode) (v : string) : TreeNode :=
  mkNode (id node) v (children node) (isExpanded node) (isLoading node)
         (hasLoaded node).

Definition with_children (node : TreeNode) (v : list TreeNode) : TreeNode :=
  mkNode (id node) (name node) (Some v) (isExpanded node) (isLoading node)
         (hasLoaded node).

Definition with_isExpanded (node : TreeNode) (v : bool) : TreeNode :=
  mkNode (id node) (name node) (children node) (Some v) (isLoading node)
         (hasLoaded node).

Definition with_isLoading (node : TreeNode) (v : bool) : TreeNode :=
  mkNode (id node) (name node) (children node) (isExpanded node) (Some v)
         (hasLoaded node).

Definition with_hasLoaded (node : TreeNode) (v : bool) : TreeNode :=
  mkNode (id node) (name node) (children node) (isExpanded node)
         (isLoading node) (Some v).

(** [node.children || []] *)
Definition childrenOrEmpty (node : TreeNode) : list TreeNode :=
  match children node with Some ch => ch | None => [] end.

(** The result of [findNode].  [parent] is the array the node was found
    in; [parentIsRoot] records whether that array is the one [findNode]
    was first called on, which is what [activeParent === prev] asks: the
    children array of a node is never the array of the roots. *)
Record Found : Type := mkFound {
  node : TreeNode;
  parent : list TreeNode;
  index : nat;
  parentIsRoot : bool
}.

(** The [for] loop of [findNode] over [nodes], from index [i] on;
    [inside] is the recursive call [findNode (nodes[i].children, id)]. *)
Definition findLoop (x : string) (inside : TreeNode -> option Found)
           (whole : list TreeNode) (isRoot : bool)
  : nat -> list TreeNode -> option Found :=
  fix loop (i : nat) (nodes : list TreeNode) : option Found :=
    match nodes with
    | [] => None
    | n :: rest =>
        if id n =? x then Some (mkFound n whole i isRoot)
        else match inside n with
             | Some found => Some found
             | None => loop (S i) rest
             end
    end.

(** [nodes[i].children ? findNode (nodes[i].children, id) : null] *)
Fixpoint findInside (x : string) (n : TreeNode) {struct n} : option Found :=
  match n with
  | mkNode _ _ (Some ch) _ _ _ => findLoop x (findInside x) ch false 0 ch
  | mkNode _ _ None _ _ _ => None
  end.

Definition findNode (nodes : list TreeNode) (x : string) : option Found :=
  findLoop x (findInside x) nodes true 0 nodes.

(** The callback that [updateNode] maps over [nodes]. *)
Fixpoint updateOne (x : string) (updater : TreeNode -> TreeNode)
         (n : TreeNode) {struct n} : TreeNode :=
  if id n =? x then updater n
  else match n with
       | mkNode i nm (Some ch) e l h =>
           mkNode i nm (Some (map (updateOne x updater) ch)) e l h
       | mkNode _ _ None _ _ _ => n
       end.

Definition updateNode (nodes : list TreeNode) (x : string)
           (updater : TreeNode -> TreeNode) : list TreeNode :=
  map (updateOne x updater) nodes.

(** [deleteNode]: the filter, then the callback mapped over what is kept. *)
Fixpoint deleteOne (x : string) (n : TreeNode) {struct n} : TreeNode :=
  match n with
  | mkNode i nm (Some ch) e l h =>
      mkNode i nm
        (Some (filterThenMap (fun c => negb (id c =? x)) (deleteOne x) ch))
        e l h
  | mkNode _ _ None _ _ _ => n
  end.

Definition deleteNode (nodes : list TreeNode) (x : string) : list TreeNode :=
  map (deleteOne x) (filter (fun n => negb (id n =? x)) nodes).

(** The callback that [addChildNode] maps over [nodes]. *)
Fixpoint addChildOne (parentId : string) (newNode : TreeNode)
         (n : TreeNode) {struct n} : TreeNode :=
  if id n =? parentId then
    with_isExpanded (with_children n (childrenOrEmpty n ++ [newNode])) true
  else match n with
       | mkNode i nm (Some ch) e l h =>
           mkNode i nm (Some (map (addChildOne parentId newNode) ch)) e l h
       | mkNode _ _ None _ _ _ => n
       end.

Definition addChildNode (nodes : list TreeNode) (parentId : string)
           (newNode : TreeNode) : list TreeNode :=
  map (addChildOne parentId newNode) nodes.

(** [simulateLazyLoad], once its timer has fired; [id1] and [id2] are the
    two values of [generateId ()]. *)
Definition simulateLazyLoad (id1 id2 : string) : list TreeNode :=
  [ mkNode id1 "Child 1" None None None (Some false);
    mkNode id2 "Child 2" None None None (Some false) ].

Definition handleToggle (prev : list TreeNode) (x : string) : list TreeNode :=
  updateNode prev x
    (fun node => with_isExpanded node (negb (truthy (isExpanded node)))).

(** [handleAddChild]; [newId] is the value of [generateId ()]. *)
Definition handleAddChild (prev : list TreeNode) (newId parentId nm : string)
  : list TreeNode :=
  let newNode := mkNode newId nm None None None (Some false) in
  addChildNode prev parentId newNode.

Definition handleEdit (prev : list TreeNode) (x newName : string)
  : list TreeNode :=
  updateNode prev x (fun node => with_name node newName).

Definition handleDelete (prev : list TreeNode) (x : string) : list TreeNode :=
  deleteNode prev x.

(** The three setters of [handleLoadChildren], each applied to the
    snapshot current when it runs. *)
Definition loadStarted (prev : list TreeNode) (x : string) : list TreeNode :=
  updateNode prev x (fun node => with_isLoading node true).

Definition loadResolved (prev : list TreeNode) (x : string)
           (fetched : list TreeNode) : list TreeNode :=
  updateNode prev x
    (fun node =>
       with_isExpanded
         (with_hasLoaded (with_isLoading (with_children node fetched) false)
                         true)
         true).

Definition loadRejected (prev : list TreeNode) (x : string) : list TreeNode :=
  updateNode prev x (fun node => with_isLoading node false).

(** [handleLoadChildren] when no other handler runs while the promise is
    pending.  [awaited] is what [await simulateLazyLoad ()] gives: the
    fetched nodes, or a rejection thrown into the [try] block.  The result
    is the snapshot shown while loading and the one left once the promise
    has settled. *)
Definition handleLoadChildren (data : list TreeNode) (x : string)
           (awaited : outcome (list TreeNode))
  : outcome (list TreeNode * list TreeNode) :=
  let loading := loadStarted data x in
  final <- tryCatch
             (fetched <- awaited ;; Returned (loadResolved loading x fetched))
             (Returned (loadRejected loading x)) ;;
  Returned (loading, final).

(** The local function [isDescendant] of [handleDragEnd]. *)
Fixpoint isDescendant (nodeId : string) (ancestor : TreeNode) {struct ancestor}
  : bool :=
  if id ancestor =? nodeId then true
  else match ancestor with
       | mkNode _ _ (Some ch) _ _ _ => existsb (isDescendant nodeId) ch
       | mkNode _ _ None _ _ _ => false
       end.

(** [overNode.children === undefined || Array.isArray (overNode.children)] *)
Definition canHaveChildren (overNode : TreeNode) : bool :=
  match children overNode with
  | None => true
  | Some _ => true
  end.

(** [handleDragEnd]: [active] is [event.active.id], [over] is
    [event.over?.id].  The setter reads [prev], the snapshot [data] of the
    render that installed the handler.  [updated] is always an array made
    by [filter] or [map] inside the setter, so [overParent === updated]
    is false. *)
Definition handleDragEnd (data : list TreeNode) (active : string)
           (over : option string) : outcome (list TreeNode) :=
  match over with
  | None => Returned data
  | Some overId =>
    if active =? overId then Returned data else
    match findNode data active, findNode data overId with
    | Some activeFound, Some overFound =>
        let activeNode := node activeFound in
        let activeParent := parent activeFound in
        let activeIndex := index activeFound in
        let overNode := node overFound in
        let overParent := parent overFound in
        let overIndex := index overFound in
        if match children activeNode with Some _ => true | None => false end
           && isDescendant overId activeNode
        then Returned data
        else
          let prev := data in
          updated <-
            (if parentIsRoot activeFound then
               Returned (filteri (fun _ i => negb (i =? activeIndex)%nat) prev)
             else
               head <- first activeParent ;;
               Returned
                 (updateNode prev (id head)
                    (fun node =>
                       with_children node
                         match children node with
                         | Some ch =>
                             filteri (fun _ i => negb (i =? activeIndex)%nat) ch
                         | None => []
                         end))) ;;
          if canHaveChildren overNode then
            Returned
              (updateNode updated overId
                 (fun node =>
                    with_isExpanded
                      (with_children node (childrenOrEmpty node ++ [activeNode]))
                      true))
          else
            let overParentIsUpdated := false in
            let targetIndex :=
              if (activeIndex <=? overIndex)%nat then S overIndex
              else overIndex in
            if overParentIsUpdated then
              Returned (splice targetIndex 0 [activeNode] updated)
            else
              head <- first overParent ;;
              Returned
                (updateNode updated (id head)
                   (fun node =>
                      with_children node
                        (splice targetIndex 0 [activeNode]
                                (childrenOrEmpty node))))
    | _, _ => Returned data
    end
  end.

(** The ids of all nodes of a forest, parents before their children. *)
Fixpoint idsOf (n : TreeNode) {struct n} : list string :=
  id n ::
  match n with
  | mkNode _ _ (Some ch) _ _ _ => flat_map idsOf ch
  | mkNode _ _ None _ _ _ => []
  end.

Definition ids (nodes : list TreeNode) : list string :=
  flat_map idsOf nodes.

Definition nodeCount (nodes : list TreeNode) : nat :=
  length (ids nodes).

(** [n] is a node of the forest: a root, or a node of the children of a
    root. *)
Inductive inForest (n : TreeNode) : list TreeNode -> Prop :=
| inForest_here : forall rest, inForest n (n :: rest)
| inForest_below : forall m ch rest,
    children m = Some ch -> inForest n ch -> inForest n (m :: rest)
| inForest_later : forall m rest, inForest n rest -> inForest n (m :: rest).

(** The updater with which [handleDragEnd] hangs the dragged node under
    the node it is dropped on; [addChildNode] does the same to the parent. *)
Definition appendChild (newNode node : TreeNode) : TreeNode :=
  with_isExpanded (with_children node (childrenOrEmpty node ++ [newNode])) true.

(** The node [findNode] returns for an id, if any. *)
Definition nodeAt (nodes : list TreeNode) (x : string) : option TreeNode :=
  option_map node (findNode nodes x).

(** A node without what lies below it: its own fields and the ids of its
    children. *)
Definition shallow (n : TreeNode)
  : string * string * option (list string)
    * option bool * option bool * option bool :=
  (id n, name n, option_map (map id) (children n),
   isExpanded n, isLoading n, hasLoaded n).

(** What [findNode] returns, seen through [shallow]. *)
Definition view (r : option Found)
  : option (string * string * option (list string)
            * option bool * option bool * option bool) :=
  option_map (fun found => shallow (node found)) r.

(** The user actions and promise settlements the tree reacts to, with the
    ids [generateId] mints; the three setters of [handleLoadChildren] are
    separate actions, since other actions may come between them. *)
Inductive Action : Type :=
| Toggle (x : string)
| AddChild (newId parentId nm : string)
| Edit (x newName : string)
| Delete (x : string)
| LoadStarted (x : string)
| LoadResolved (x : string) (fetched : list TreeNode)
| LoadRejected (x : string)
| DragEnd (active : string) (over : option string).

Definition step (nodes : list TreeNode) (a : Action)
  : outcome (list TreeNode) :=
  match a with
  | Toggle x => Returned (handleToggle nodes x)
  | AddChild newId parentId nm =>
      Returned (handleAddChild nodes newId parentId nm)
  | Edit x newName => Returned (handleEdit nodes x newName)
  | Delete x => Returned (handleDelete nodes x)
  | LoadStarted x => Returned (loadStarted nodes x)
  | LoadResolved x fetched => Returned (loadResolved nodes x fetched)
  | LoadRejected x => Returned (loadRejected nodes x)
  | DragEnd active over => handleDragEnd nodes active over
  end.

Fixpoint run (nodes : list TreeNode) (actions : list Action)
  : outcome (list TreeNode) :=
  match actions with
  | [] => Returned nodes
  | a :: rest => next <- step nodes a ;; run next rest
  end.

(** [generateId] is taken to return ids no node has at that time, and
    distinct ids for the nodes of one fetch. *)
Definition mintsFresh (nodes : list TreeNode) (a : Action) : Prop :=
  match a with
  | AddChild newId _ _ => ~ In newId (ids nodes)
  | LoadResolved _ fetched =>
      NoDup (ids fetched) /\ forall y, In y (ids fetched) -> ~ In y (ids nodes)
  | _ => True
  end.

(** The dragged node, if the action drags one, is a root. *)
Definition dragsRoot (nodes : list TreeNode) (a : Action) : Prop :=
  match a with
  | DragEnd active _ =>
      forall found, findNode nodes active = Some found ->
                    parentIsRoot found = true
  | _ => True
  end.

Fixpoint allFreshRootDrags (nodes : list TreeNode) (actions : list Action)
  : Prop :=
  match actions with
  | [] => True
  | a :: rest =>
      mintsFresh nodes a /\ dragsRoot nodes a /\
      forall next, step nodes a = Returned next -> allFreshRootDrags next rest
  end.

(** [getFlatNodeIds]: the inner function [collectIds] pushes onto the one
    array [ids], which is threaded through here.  [collectInto] is the
    callback of [nodeList.forEach]. *)
Fixpoint collectInto (n : TreeNode) (ids : list string) {struct n}
  : list string :=
  let ids := ids ++ [id n] in
  match n with
  | mkNode _ _ (Some ch) e _ _ =>
      if truthy e then fold_left (fun acc c => collectInto c acc) ch ids
      else ids
  | mkNode _ _ None _ _ _ => ids
  end.

Definition collectIds (nodeList : list TreeNode) (ids : list string)
  : list string :=
  fold_left (fun acc n => collectInto n acc) nodeList ids.

Definition getFlatNodeIds (nodes : list TreeNode) : list string :=
  collectIds nodes [].

(** [TreeNode.tsx]: [hasChildren] is [node.children &&
    node.children.length > 0], undefined when there is no array. *)
Definition hasChildren (n : TreeNode) : option bool :=
  match children n with
  | None => None
  | Some ch => Some (0 <? length ch)%nat
  end.

(** [isLeaf] is [!hasChildren && !node.children]; an array is truthy. *)
Definition isLeaf (n : TreeNode) : bool :=
  negb (truthy (hasChildren n))
  && negb match children n with Some _ => true | None => false end.

(** The ids that the [TreeNode] component of a node and the components it
    renders below itself pass to [useSortable]: its own, and those of its
    children when [node.isExpanded && hasChildren]. *)
Fixpoint sortableIds (n : TreeNode) {struct n} : list string :=
  id n ::
  match n with
  | mkNode _ _ (Some ch) e _ _ =>
      if truthy e && (0 <? length ch)%nat then flat_map sortableIds ch else []
  | mkNode _ _ None _ _ _ => []
  end.

(** The props a [TreeNode] component calls back. *)
Inductive Callback : Type :=
| OnLoadChildren (x : string)
| OnToggle (x : string).

(** [handleToggle] of the [TreeNode] component: the callbacks it makes,
    in order. *)
Definition componentToggle (n : TreeNode) : list Callback :=
  if negb (isLeaf n) then
    (if negb (truthy (hasLoaded n))
        && match children n with None => true | Some _ => false end
     then [OnLoadChildren (id n)] else [])
    ++ [OnToggle (id n)]
  else [].

(** A forest with unique ids: P with the children X and Y, and Q. *)
Definition sampleForest : list TreeNode :=
  [ mkNode "P" "Documents"
           (Some [ mkNode "X" "Work" None None None None;
                   mkNode "Y" "Personal" None None None None ])
           (Some true) None None;
    mkNode "Q" "Projects" None None None None ].

End Tree.

(** * Facts about lists *)

Lemma NoDup_app_inv {A} (l1 l2 : list A) :
  NoDup (l1 ++ l2) ->
  NoDup l1 /\ NoDup l2 /\ forall a, In a l1 -> ~ In a l2.
Proof.
  induction l1 as [|x l1 IH]; simpl; intros H.
  - repeat split; [constructor | assumption | tauto].
  - inversion H as [|? ? Hx Hnd]; subst.
    destruct (IH Hnd) as (H1 & H2 & H3). repeat split; auto.
    + constructor; auto. intros Hin. apply Hx. apply in_or_app. now left.
    + intros a [<-|Ha]; [|now apply H3].
      intros Hin. apply Hx. apply in_or_app. now right.
Qed.

Lemma perm_replace {A} (pre post l l' : list A) :
  Permutation l l' -> Permutation (pre ++ l ++ post) (pre ++ l' ++ post).
Proof. intros H. now apply Permutation_app_head, Permutation_app_tail. Qed.

Lemma perm_insert {A} (x : A) (pre post l l' : list A) :
  Permutation l' (x :: l) ->
  Permutation (pre ++ l' ++ post) (x :: pre ++ l ++ post).
Proof.
  intros H. etransitivity; [apply perm_replace, H|].
  simpl. symmetry. apply Permutation_middle.
Qed.

Lemma splice_insert_perm {A} (k : nat) (x : A) (l : list A) :
  Permutation (splice k 0 [x] l) (x :: l).
Proof.
  unfold splice. rewrite Nat.add_0_r. simpl.
  rewrite <- (firstn_skipn k l) at 3. symmetry. apply Permutation_middle.
Qed.

Lemma splice_delete_perm {A} (k : nat) (x : A) (l : list A) :
  nth_error l k = Some x -> Permutation (x :: splice k 1 [] l) l.
Proof.
  revert l. induction k as [|k IH]; intros [|a l]; simpl; try discriminate.
  - intros H. injection H as ->. reflexivity.
  - intros H. etransitivity; [apply perm_swap|].
    apply perm_skip. now apply IH.
Qed.

(** * Properties of the kanban engine *)

Module KanbanFacts.
Import Kanban.

Lemma findIndex_none {A} (p : A -> bool) (l : list A) :
  findIndex p l = None <-> forall x, In x l -> p x = false.
Proof.
  induction l as [|a l IH]; simpl.
  - split; [intros _ x [] | reflexivity].
  - destruct (p a) eqn:Ha.
    + split; [discriminate|]. intros H. rewrite (H a) in Ha by auto.
      discriminate.
    + destruct (findIndex p l) eqn:E; simpl.
      * split; [discriminate|]. intros H.
        assert (Some n = None) by (apply IH; auto). discriminate.
      * split; [|reflexivity]. intros _ x [<-|Hx]; [assumption|].
        now apply IH.
Qed.

Lemma findIndex_some {A} (p : A -> bool) (l : list A) (i : nat) :
  findIndex p l = Some i ->
  exists x, nth_error l i = Some x /\ p x = true /\
            forall y, In y (firstn i l) -> p y = false.
Proof.
  revert i. induction l as [|a l IH]; simpl; intros i H; [discriminate|].
  destruct (p a) eqn:Ha.
  - injection H as <-. exists a. simpl. repeat split; auto. intros y [].
  - destruct (findIndex p l) as [j|] eqn:E; simpl in H; [|discriminate].
    injection H as <-. destruct (IH j eq_refl) as (x & Hx & Hp & Hbefore).
    exists x. simpl. repeat split; auto.
    intros y [<-|Hy]; auto.
Qed.

Lemma locate_none columns x :
  locate columns x = None <-> ~ In x (cardIds columns).
Proof.
  unfold cardIds. induction columns as [|col rest IH]; simpl.
  - tauto.
  - rewrite in_app_iff.
    destruct (findIndex _ (Column.cards col)) as [i|] eqn:E.
    + split; [discriminate|]. intros H. exfalso. apply H. left.
      apply findIndex_some in E. destruct E as (c & Hc & Hp & _).
      apply String.eqb_eq in Hp. subst x.
      apply in_map. eapply nth_error_In; eauto.
    + rewrite IH. split; [|tauto]. intros H [Hin|Hin]; [|tauto].
      apply in_map_iff in Hin. destruct Hin as (c & <- & Hc).
      rewrite findIndex_none in E. specialize (E c Hc). simpl in E.
      rewrite String.eqb_refl in E. discriminate.
Qed.

Lemma locate_some columns x col i :
  locate columns x = Some (col, i) ->
  In col columns /\
  exists card, nth_error (Column.cards col) i = Some card /\ Card.id card = x.
Proof.
  induction columns as [|c rest IH]; simpl; [discriminate|].
  destruct (findIndex _ (Column.cards c)) as [j|] eqn:E.
  - intros H. injection H as <- <-. split; [now left|].
    apply findIndex_some in E. destruct E as (card & Hc & Hp & _).
    exists card. split; auto. now apply String.eqb_eq.
  - intros H. destruct (IH H) as [Hin Hc]. split; [now right | exact Hc].
Qed.

Lemma findColumn_none columns x :
  findColumn columns x = None <-> ~ In x (columnIds columns).
Proof.
  unfold findColumn, columnIds. induction columns as [|c rest IH]; simpl.
  - tauto.
  - destruct (String.eqb_spec (Column.id c) x) as [->|Hne].
    + split; [discriminate | tauto].
    + rewrite IH. tauto.
Qed.

Lemma findColumn_some columns x col :
  findColumn columns x = Some col -> In col columns /\ Column.id col = x.
Proof.
  unfold findColumn. intros H. apply find_some in H.
  destruct H as [Hin Hid]. split; auto. now apply String.eqb_eq.
Qed.

(** A map that touches no column is the identity. *)
Lemma map_untouched {A} (g : A -> A) (l : list A) :
  (forall x, In x l -> g x = x) -> map g l = l.
Proof.
  intros H. rewrite <- (map_id l) at 2. apply map_ext_in. exact H.
Qed.

Lemma with_cards_same col : with_cards col (Column.cards col) = col.
Proof. now destruct col. Qed.

Lemma findColumn_map (g : Column -> Column) columns x :
  (forall c, Column.id (g c) = Column.id c) ->
  findColumn (map g columns) x = option_map g (findColumn columns x).
Proof.
  intros Hg. unfold findColumn.
  induction columns as [|c rest IH]; simpl; [reflexivity|].
  rewrite Hg. destruct (Column.id c =? x); [reflexivity | exact IH].
Qed.

Lemma findColumn_unique columns col :
  NoDup (columnIds columns) -> In col columns ->
  findColumn columns (Column.id col) = Some col.
Proof.
  unfold findColumn, columnIds.
  induction columns as [|c rest IH]; simpl; intros Hnd Hin; [contradiction|].
  inversion Hnd as [|? ? Hnotin Hnd']; subst.
  destruct (String.eqb_spec (Column.id c) (Column.id col)) as [Heq|Hne].
  - destruct Hin as [->|Hin]; [reflexivity|].
    exfalso. apply Hnotin. rewrite Heq. now apply in_map.
  - destruct Hin as [->|Hin]; [congruence | now apply IH].
Qed.

(** Solves the goals left once every test of [handleDragEnd] is decided. *)
Ltac decide_branches :=
  repeat match goal with
         | |- context [match ?x with _ => _ end] => destruct x eqn:?
         end.

(** The handlers keep the (id, title) pair of every column in place. *)
Lemma header_add columns newId columnId t :
  map header (handleAddCard columns newId columnId t) = map header columns.
Proof.
  unfold handleAddCard. rewrite map_map. apply map_ext. intros col.
  now destruct (Column.id col =? columnId).
Qed.

Lemma header_edit columns cardId t :
  map header (handleEditCard columns cardId t) = map header columns.
Proof. unfold handleEditCard. rewrite map_map. now apply map_ext. Qed.

Lemma header_delete columns cardId :
  map header (handleDeleteCard columns cardId) = map header columns.
Proof. unfold handleDeleteCard. rewrite map_map. now apply map_ext. Qed.

Lemma header_drag columns active over :
  map header (handleDragEnd columns active over) = map header columns.
Proof.
  unfold handleDragEnd. decide_branches; try reflexivity;
    rewrite map_map; apply map_ext; intros col;
    decide_branches; reflexivity.
Qed.

(** C10. No kanban handler adds, removes, reorders, renames or re-titles a
    column: the sequence of (id, title) pairs of the columns is the same
    before and after [handleAddCard], [handleEditCard], [handleDeleteCard]
    and every branch of [handleDragEnd]. *)
Theorem columns_frame (columns : list Column) (a b c : string)
        (over : option string) :
  map header (handleAddCard columns a b c) = map header columns /\
  map header (handleEditCard columns a b) = map header columns /\
  map header (handleDeleteCard columns a) = map header columns /\
  map header (handleDragEnd columns a over) = map header columns /\
  length (handleAddCard columns a b c) = length columns /\
  length (handleEditCard columns a b) = length columns /\
  length (handleDeleteCard columns a) = length columns /\
  length (handleDragEnd columns a over) = length columns.
Proof.
  pose proof (header_add columns a b c) as H1.
  pose proof (header_edit columns a b) as H2.
  pose proof (header_delete columns a) as H3.
  pose proof (header_drag columns a over) as H4.
  repeat split; try assumption.
  - apply (f_equal (@length _)) in H1. now rewrite !length_map in H1.
  - apply (f_equal (@length _)) in H2. now rewrite !length_map in H2.
  - apply (f_equal (@length _)) in H3. now rewrite !length_map in H3.
  - apply (f_equal (@length _)) in H4. now rewrite !length_map in H4.
Qed.

(** C4. In the column todo = [c1, c2, c3], dragging c1 onto c3 (index 2)
    gives todo = [c2, c3, c1]: c1 is spliced out first and index 2 is then
    taken in the two cards that remain.  The other columns are untouched. *)
Theorem reorder_example (c1 c2 c3 : Card) (ttl : string) (rest : list Column) :
  Card.id c1 <> Card.id c2 ->
  Card.id c1 <> Card.id c3 ->
  Card.id c2 <> Card.id c3 ->
  ~ In (Card.id c3) (columnIds (Column.mk "todo" ttl [c1; c2; c3] :: rest)) ->
  ~ In "todo" (columnIds rest) ->
  handleDragEnd (Column.mk "todo" ttl [c1; c2; c3] :: rest)
                (Card.id c1) (Some (Card.id c3))
  = Column.mk "todo" ttl [c2; c3; c1] :: rest.
Proof.
  intros H12 H13 H23 Hcol Hrest.
  unfold handleDragEnd.
  apply String.eqb_neq in H12, H13, H23.
  rewrite H13. simpl locate. rewrite String.eqb_refl. simpl nth_error. cbv iota.
  apply findColumn_none in Hcol. rewrite Hcol.
  simpl. rewrite H13, H23, String.eqb_refl. simpl.
  unfold with_cards, splice. simpl. f_equal.
  apply map_untouched. intros col Hin.
  destruct (String.eqb_spec (Column.id col) "todo") as [Heq|]; [|reflexivity].
  exfalso. apply Hrest. rewrite <- Heq. unfold columnIds. now apply in_map.
Qed.

Lemma reorder_example_witness :
  handleDragEnd
    [Column.mk "todo" "Todo" [Card.mk "c1" "a"; Card.mk "c2" "b"; Card.mk "c3" "c"];
     Column.mk "done" "Done" [Card.mk "c4" "d"]]
    "c1" (Some "c3")
  = [Column.mk "todo" "Todo" [Card.mk "c2" "b"; Card.mk "c3" "c"; Card.mk "c1" "a"];
     Column.mk "done" "Done" [Card.mk "c4" "d"]].
Proof.
  apply (reorder_example (Card.mk "c1" "a") (Card.mk "c2" "b") (Card.mk "c3" "c")
                         "Todo" [Column.mk "done" "Done" [Card.mk "c4" "d"]]);
    simpl; try discriminate; intuition discriminate.
Defined.

Lemma removed_not_in (x : string) (cs : list Card) :
  ~ In x (map Card.id (filter (fun c => negb (Card.id c =? x)) cs)).
Proof.
  intros H. apply in_map_iff in H. destruct H as (c & <- & Hc).
  apply filter_In in Hc. destruct Hc as [_ Hc].
  rewrite String.eqb_refl in Hc. discriminate.
Qed.

(** C9, as the specification words it, fails: c1 dropped on the droppable
    area of its own column todo = [c1, c2] is not moved behind c2. *)
Lemma drop_on_own_column_counterexample :
  ~ appendsToColumn
      [Column.mk "todo" "Todo" [Card.mk "c1" "a"; Card.mk "c2" "b"]]
      "c1" "todo".
Proof.
  intros H.
  destruct (H (Column.mk "todo" "Todo" [Card.mk "c1" "a"; Card.mk "c2" "b"])
              0 (Card.mk "c1" "a")
              (Column.mk "todo" "Todo" [Card.mk "c1" "a"; Card.mk "c2" "b"])
              (conj eq_refl eq_refl) eq_refl)
    as [(tgt' & others & Hfind & Hcards) _].
  vm_compute in Hfind. injection Hfind as <-. simpl in Hcards.
  apply (f_equal (@rev Card)) in Hcards. rewrite rev_app_distr in Hcards.
  simpl in Hcards. discriminate.
Qed.

(** C9, amended.  A card dropped on the droppable area of a column other
    than its own is filtered out of its source column and becomes the last
    card of the target column, every other column staying as it was; a
    card dropped on the area of its own column (or on a droppable that
    carries the card's own id) leaves the snapshot unchanged. *)
Theorem drop_on_column (columns : list Column) (cardId columnId : string)
        (src : Column) (i : nat) (card : Card) (tgt : Column) :
  NoDup (columnIds columns) ->
  picked columns cardId src i card ->
  findColumn columns columnId = Some tgt ->
  let after := handleDragEnd columns cardId (Some columnId) in
  (cardId = columnId \/ Column.id src = columnId -> after = columns) /\
  (cardId <> columnId -> Column.id src <> columnId ->
   let kept := filter (fun c => negb (Card.id c =? cardId)) (Column.cards src) in
   findColumn after (Column.id src) = Some (with_cards src kept) /\
   ~ In cardId (map Card.id kept) /\
   findColumn after columnId = Some (with_cards tgt (Column.cards tgt ++ [card])) /\
   forall x, x <> Column.id src -> x <> columnId ->
             findColumn after x = findColumn columns x).
Proof.
  intros Hnd [Hloc Hnth] Htgt after. subst after. unfold handleDragEnd.
  destruct (findColumn_some _ _ _ Htgt) as [Htin Htid].
  destruct (locate_some _ _ _ _ Hloc) as [Hsin _].
  rewrite Hloc, Hnth, Htgt, Htid. split.
  - intros [->| ->].
    + now rewrite String.eqb_refl.
    + rewrite String.eqb_refl. now destruct (cardId =? columnId).
  - intros Hne Hsrc.
    apply String.eqb_neq in Hne. rewrite Hne.
    assert (Hts : (columnId =? Column.id src) = false)
      by (apply String.eqb_neq; congruence).
    rewrite Hts.
    set (g := fun col : Column => _).
    assert (Hg : forall c, Column.id (g c) = Column.id c).
    { intros c. unfold g. now decide_branches. }
    repeat split.
    + rewrite (findColumn_map g _ _ Hg), (findColumn_unique _ _ Hnd Hsin).
      simpl. unfold g. now rewrite String.eqb_refl.
    + apply removed_not_in.
    + rewrite (findColumn_map g _ _ Hg), Htgt. simpl. unfold g.
      now rewrite Htid, Hts, String.eqb_refl.
    + intros x Hx1 Hx2. rewrite (findColumn_map g _ _ Hg).
      destruct (findColumn columns x) as [c|] eqn:E; [|reflexivity].
      apply findColumn_some in E. destruct E as [_ <-]. simpl. unfold g.
      apply String.eqb_neq in Hx1, Hx2. now rewrite Hx1, Hx2.
Qed.

Lemma drop_on_column_witness :
  let columns := [Column.mk "todo" "Todo" [Card.mk "c1" "a"; Card.mk "c2" "b"];
                  Column.mk "done" "Done" [Card.mk "c3" "c"]] in
  findColumn (handleDragEnd columns "c1" (Some "done")) "done"
  = Some (Column.mk "done" "Done" [Card.mk "c3" "c"; Card.mk "c1" "a"]).
Proof.
  intros columns.
  assert (Hnd : NoDup (columnIds columns)).
  { unfold columns. simpl. repeat constructor; simpl; intuition discriminate. }
  destruct (drop_on_column columns "c1" "done"
              (Column.mk "todo" "Todo" [Card.mk "c1" "a"; Card.mk "c2" "b"])
              0 (Card.mk "c1" "a") (Column.mk "done" "Done" [Card.mk "c3" "c"])
              Hnd (conj eq_refl eq_refl) eq_refl) as [_ H].
  destruct H as (_ & _ & H & _); [discriminate | discriminate | exact H].
Defined.

(** Handlers given an id that the snapshot does not hold. *)
Lemma handleEditCard_missing columns x t :
  ~ In x (cardIds columns) -> handleEditCard columns x t = columns.
Proof.
  intros Hx. unfold handleEditCard. apply map_untouched. intros col Hcol.
  transitivity (with_cards col (Column.cards col));
    [f_equal | apply with_cards_same].
  apply map_untouched. intros card Hcard.
  destruct (String.eqb_spec (Card.id card) x) as [Heq|]; [|reflexivity].
  exfalso. apply Hx. unfold cardIds. apply in_flat_map. exists col.
  split; auto. rewrite <- Heq. now apply in_map.
Qed.

Lemma filter_all {A} (p : A -> bool) (l : list A) :
  (forall x, In x l -> p x = true) -> filter p l = l.
Proof.
  induction l as [|a l IH]; simpl; intros H; [reflexivity|].
  rewrite (H a) by auto. f_equal. apply IH. auto.
Qed.

Lemma handleDeleteCard_missing columns x :
  ~ In x (cardIds columns) -> handleDeleteCard columns x = columns.
Proof.
  intros Hx. unfold handleDeleteCard. apply map_untouched. intros col Hcol.
  transitivity (with_cards col (Column.cards col));
    [f_equal | apply with_cards_same].
  apply filter_all. intros card Hcard.
  destruct (String.eqb_spec (Card.id card) x) as [Heq|]; [|reflexivity].
  exfalso. apply Hx. unfold cardIds. apply in_flat_map. exists col.
  split; auto. rewrite <- Heq. now apply in_map.
Qed.

Lemma handleAddCard_missing columns newId x t :
  ~ In x (columnIds columns) -> handleAddCard columns newId x t = columns.
Proof.
  intros Hx. unfold handleAddCard. apply map_untouched. intros col Hcol.
  destruct (String.eqb_spec (Column.id col) x) as [Heq|]; [|reflexivity].
  exfalso. apply Hx. rewrite <- Heq. unfold columnIds. now apply in_map.
Qed.

Lemma dragCard_missing_active columns x over :
  ~ In x (cardIds columns) -> handleDragEnd columns x over = columns.
Proof.
  intros Hx. apply locate_none in Hx. unfold handleDragEnd. rewrite Hx.
  now decide_branches.
Qed.

Lemma dragCard_missing_over columns a x :
  ~ In x (cardIds columns) -> ~ In x (columnIds columns) ->
  handleDragEnd columns a (Some x) = columns.
Proof.
  intros Hx Hc. apply locate_none in Hx. apply findColumn_none in Hc.
  unfold handleDragEnd. rewrite Hx, Hc. now decide_branches.
Qed.




(** ** Cards are moved, never copied or lost *)

Lemma cardIds_allCards columns :
  cardIds columns = map Card.id (allCards columns).
Proof.
  unfold cardIds, allCards.
  induction columns as [|c rest IH]; simpl; [reflexivity|].
  rewrite map_app. now f_equal.
Qed.

Lemma columnIds_map (g : Column -> Column) columns :
  (forall c, Column.id (g c) = Column.id c) ->
  columnIds (map g columns) = columnIds columns.
Proof.
  intros Hg. unfold columnIds. rewrite map_map. now apply map_ext.
Qed.

Lemma allCards_app l1 l2 : allCards (l1 ++ l2) = allCards l1 ++ allCards l2.
Proof. apply flat_map_app. Qed.

Lemma split_by_id columns c :
  NoDup (columnIds columns) -> In c columns ->
  exists pre post,
    columns = pre ++ c :: post /\
    ~ In (Column.id c) (columnIds pre) /\
    ~ In (Column.id c) (columnIds post).
Proof.
  intros Hnd Hin. destruct (in_split _ _ Hin) as (pre & post & ->).
  exists pre, post. split; [reflexivity|].
  unfold columnIds in *. rewrite map_app in Hnd. simpl in Hnd.
  apply NoDup_remove_2 in Hnd. rewrite in_app_iff in Hnd. tauto.
Qed.

(** A map that touches only the columns that have the id of [c] touches
    only [c], column ids being unique. *)
Lemma allCards_update columns c (g : Column -> Column) :
  NoDup (columnIds columns) -> In c columns ->
  (forall col, Column.id col <> Column.id c -> g col = col) ->
  exists pre post,
    allCards columns = pre ++ Column.cards c ++ post /\
    allCards (map g columns) = pre ++ Column.cards (g c) ++ post.
Proof.
  intros Hnd Hin Hg.
  destruct (split_by_id _ _ Hnd Hin) as (pre & post & -> & Hpre & Hpost).
  exists (allCards pre), (allCards post).
  rewrite map_app, !allCards_app. simpl map.
  change (allCards (c :: post)) with (Column.cards c ++ allCards post).
  change (allCards (g c :: map g post))
    with (Column.cards (g c) ++ allCards (map g post)).
  rewrite (map_untouched g pre), (map_untouched g post);
    [split; reflexivity | |];
    intros col Hc; apply Hg; intros E;
    [apply Hpost | apply Hpre]; rewrite <- E; now apply in_map.
Qed.

Lemma column_cards_nodup columns c :
  NoDup (cardIds columns) -> In c columns ->
  NoDup (map Card.id (Column.cards c)).
Proof.
  intros Hnd Hin. destruct (in_split _ _ Hin) as (pre & post & ->).
  unfold cardIds in Hnd. rewrite flat_map_app in Hnd. simpl in Hnd.
  apply NoDup_app_remove_l, NoDup_app_remove_r in Hnd. exact Hnd.
Qed.

Lemma filter_out_perm (card : Card) (l : list Card) :
  NoDup (map Card.id l) -> In card l ->
  Permutation l
    (card :: filter (fun c => negb (Card.id c =? Card.id card)) l).
Proof.
  induction l as [|a l IH]; simpl; intros Hnd Hin; [contradiction|].
  inversion Hnd as [|? ? Ha Hnd']; subst. destruct Hin as [->|Hin].
  - rewrite String.eqb_refl. simpl. apply perm_skip.
    rewrite filter_all; [reflexivity|]. intros c Hc.
    destruct (String.eqb_spec (Card.id c) (Card.id card)) as [E|];
      [|reflexivity].
    exfalso. apply Ha. rewrite <- E. now apply in_map.
  - destruct (String.eqb_spec (Card.id a) (Card.id card)) as [E|_].
    + exfalso. apply Ha. rewrite E. now apply in_map.
    + simpl. etransitivity; [apply perm_skip, IH; assumption|].
      apply perm_swap.
Qed.

(** The two-column maps of [handleDragEnd]: [card] leaves [src] through
    [fs] and enters [tgt] through [ft]. *)
Lemma allCards_move columns (src tgt : Column) (card : Card)
      (fs ft : list Card -> list Card) :
  NoDup (columnIds columns) -> In src columns -> In tgt columns ->
  Column.id src <> Column.id tgt ->
  Permutation (Column.cards src) (card :: fs (Column.cards src)) ->
  (forall l, Permutation (ft l) (card :: l)) ->
  Permutation
    (allCards
       (map (fun col =>
               if Column.id col =? Column.id src
               then with_cards col (fs (Column.cards col))
               else if Column.id col =? Column.id tgt
                    then with_cards col (ft (Column.cards col))
                    else col) columns))
    (allCards columns).
Proof.
  intros Hnd Hs Ht Hne Hfs Hft.
  set (g1 := fun col => if Column.id col =? Column.id src
                        then with_cards col (fs (Column.cards col)) else col).
  set (g2 := fun col => if Column.id col =? Column.id tgt
                        then with_cards col (ft (Column.cards col)) else col).
  assert (Hid1 : forall c, Column.id (g1 c) = Column.id c)
    by (intros c; unfold g1; now destruct (Column.id c =? Column.id src)).
  assert (Hmap : map (fun col =>
                        if Column.id col =? Column.id src
                        then with_cards col (fs (Column.cards col))
                        else if Column.id col =? Column.id tgt
                             then with_cards col (ft (Column.cards col))
                             else col) columns
                 = map g2 (map g1 columns)).
  { rewrite map_map. apply map_ext. intros col. unfold g1, g2.
    destruct (String.eqb_spec (Column.id col) (Column.id src)) as [E|_];
      [|reflexivity].
    simpl. rewrite E.
    destruct (String.eqb_spec (Column.id src) (Column.id tgt));
      [contradiction | reflexivity]. }
  rewrite Hmap.
  destruct (allCards_update columns src g1 Hnd Hs) as (pre1 & post1 & E1 & E1').
  { intros col Hc. unfold g1. apply String.eqb_neq in Hc. now rewrite Hc. }
  assert (Hg1t : g1 tgt = tgt).
  { unfold g1. destruct (String.eqb_spec (Column.id tgt) (Column.id src));
      [congruence | reflexivity]. }
  destruct (allCards_update (map g1 columns) tgt g2) as (pre2 & post2 & E2 & E2').
  { now rewrite columnIds_map. }
  { apply in_map_iff. now exists tgt. }
  { intros col Hc. unfold g2. apply String.eqb_neq in Hc. now rewrite Hc. }
  assert (Hc1 : Column.cards (g1 src) = fs (Column.cards src))
    by (unfold g1; now rewrite String.eqb_refl).
  assert (Hc2 : Column.cards (g2 tgt) = ft (Column.cards tgt))
    by (unfold g2; now rewrite String.eqb_refl).
  rewrite E2', Hc2.
  transitivity (card :: pre2 ++ Column.cards tgt ++ post2).
  - apply perm_insert, Hft.
  - rewrite <- E2, E1', Hc1, E1. symmetry. now apply perm_insert.
Qed.

(** [handleDragEnd] rearranges the cards of a snapshot with unique ids. *)
Lemma drag_permutes_cards columns active over :
  NoDup (columnIds columns) -> NoDup (cardIds columns) ->
  Permutation (allCards (handleDragEnd columns active over)) (allCards columns).
Proof.
  intros Hcol Hcard. unfold handleDragEnd.
  destruct over as [overId|]; [|reflexivity].
  destruct (active =? overId); [reflexivity|].
  destruct (locate columns active) as [[src si]|] eqn:Hloc; [|reflexivity].
  destruct (nth_error (Column.cards src) si) as [card|] eqn:Hnth;
    [|reflexivity].
  destruct (locate_some _ _ _ _ Hloc) as (Hsrc & card' & Hnth' & Hid).
  rewrite Hnth in Hnth'. injection Hnth' as <-. subst active.
  assert (Hout : Permutation (Column.cards src)
                   (card :: filter (fun c => negb (Card.id c =? Card.id card))
                                   (Column.cards src))).
  { apply filter_out_perm.
    - now apply (column_cards_nodup columns).
    - eapply nth_error_In; eauto. }
  destruct (findColumn columns overId) as [tgt|] eqn:Htgt.
  - apply findColumn_some in Htgt. destruct Htgt as [Htin _].
    destruct (String.eqb_spec (Column.id tgt) (Column.id src)) as [|Hne];
      [reflexivity|].
    apply (allCards_move columns src tgt card
             (filter (fun c => negb (Card.id c =? Card.id card)))
             (fun l => l ++ [card])); auto.
    intros l. symmetry. apply Permutation_cons_append.
  - destruct (locate columns overId) as [[tgt ti]|] eqn:Hloc2; [|reflexivity].
    destruct (locate_some _ _ _ _ Hloc2) as (Htin & _). cbv zeta.
    destruct (String.eqb_spec (Column.id src) (Column.id tgt)) as [Heq|Hne].
    + destruct (ti =? si)%nat; [reflexivity|].
      match goal with
      | |- context [map ?f columns] => set (g := f)
      end.
      destruct (allCards_update columns src g Hcol Hsrc) as (pre & post & E & E').
      { intros col Hc. unfold g. apply String.eqb_neq in Hc. now rewrite Hc. }
      rewrite E, E'. apply perm_replace. unfold g.
      rewrite String.eqb_refl. simpl Column.cards.
      destruct (si <? ti)%nat;
        (etransitivity; [apply splice_insert_perm|]);
        now apply splice_delete_perm.
    + apply (allCards_move columns src tgt card
               (filter (fun c => negb (Card.id c =? Card.id card)))
               (splice ti 0 [card])); auto.
      intros l. apply splice_insert_perm.
Qed.

Lemma drag_card_count columns active over :
  uniqueIds columns ->
  cardCount (handleDragEnd columns active over) = cardCount columns.
Proof.
  intros [Hcol Hcard]. unfold cardCount. rewrite !cardIds_allCards, !length_map.
  apply Permutation_length. now apply drag_permutes_cards.
Qed.

Lemma cardIds_edit columns x t :
  cardIds (handleEditCard columns x t) = cardIds columns.
Proof.
  unfold cardIds, handleEditCard.
  induction columns as [|c rest IH]; simpl; [reflexivity|].
  rewrite IH. f_equal. rewrite map_map. apply map_ext.
  intros card. now destruct (Card.id card =? x).
Qed.

Lemma cardIds_delete columns x :
  cardIds (handleDeleteCard columns x)
  = filter (fun y => negb (y =? x)) (cardIds columns).
Proof.
  unfold cardIds, handleDeleteCard.
  induction columns as [|c rest IH]; simpl; [reflexivity|].
  rewrite IH, filter_app. f_equal.
  induction (Column.cards c) as [|card cs IHc]; simpl; [reflexivity|].
  destruct (Card.id card =? x); simpl; now rewrite IHc.
Qed.

Lemma length_filter_out (x : string) (l : list string) :
  NoDup l -> In x l ->
  S (length (filter (fun y => negb (y =? x)) l)) = length l.
Proof.
  induction l as [|a l IH]; simpl; intros Hnd Hin; [contradiction|].
  inversion Hnd as [|? ? Ha Hnd']; subst.
  destruct (String.eqb_spec a x) as [->|Hne]; simpl.
  - rewrite filter_all; [reflexivity|]. intros y Hy.
    destruct (String.eqb_spec y x) as [->|]; [contradiction | reflexivity].
  - f_equal. apply IH; [assumption|]. destruct Hin; [contradiction | assumption].
Qed.

(** With unique card ids, [handleDeleteCard] of a card that is on the
    board leaves one card less. *)
Lemma delete_card_count columns x :
  NoDup (cardIds columns) -> In x (cardIds columns) ->
  S (cardCount (handleDeleteCard columns x)) = cardCount columns.
Proof.
  intros Hnd Hin. unfold cardCount. rewrite cardIds_delete.
  now apply length_filter_out.
Qed.

Lemma add_card_perm columns newId columnId t :
  NoDup (columnIds columns) -> In columnId (columnIds columns) ->
  Permutation (allCards (handleAddCard columns newId columnId t))
              (Card.mk newId t :: allCards columns).
Proof.
  intros Hnd Hin. unfold columnIds in Hin. apply in_map_iff in Hin.
  destruct Hin as (c & <- & Hc). unfold handleAddCard. cbv zeta.
  match goal with |- context [map ?f columns] => set (g := f) end.
  destruct (allCards_update columns c g Hnd Hc) as (pre & post & E & E').
  { intros col Hne. unfold g. apply String.eqb_neq in Hne. now rewrite Hne. }
  rewrite E, E'. apply perm_insert. unfold g. rewrite String.eqb_refl.
  simpl. symmetry. apply Permutation_cons_append.
Qed.

(** The uniqueness invariant is kept by every kanban action. *)
Lemma card_step_unique columns a :
  uniqueIds columns -> mintsFresh columns a -> uniqueIds (step columns a).
Proof.
  intros [Hcol Hcard] Hfresh. split.
  - assert (H : columnIds (step columns a) = columnIds columns).
    { unfold columnIds.
      assert (F : map header (step columns a) = map header columns).
      { destruct a as [n c t|c t|c|x o]; simpl;
          [ apply header_add | apply header_edit
          | apply header_delete | apply header_drag ]. }
      apply (f_equal (map fst)) in F. rewrite !map_map in F. exact F. }
    now rewrite H.
  - destruct a as [n c t|c t|c|x o]; simpl in *.
    + destruct (in_dec string_dec c (columnIds columns)) as [Hin|Hout].
      * rewrite cardIds_allCards.
        apply (Permutation_NoDup (l := map Card.id (Card.mk n t :: allCards columns))).
        -- symmetry. apply Permutation_map. now apply add_card_perm.
        -- simpl. constructor; rewrite <- cardIds_allCards; assumption.
      * now rewrite handleAddCard_missing.
    + now rewrite cardIds_edit.
    + rewrite cardIds_delete. now apply NoDup_filter.
    + rewrite cardIds_allCards.
      apply (Permutation_NoDup (l := map Card.id (allCards columns))).
      * symmetry. apply Permutation_map. now apply drag_permutes_cards.
      * now rewrite <- cardIds_allCards.
Qed.

(** Every snapshot reached from one with unique column and card ids, by
    any sequence of adds, edits, deletes and drags in which each new card
    gets an id that no card has, has unique column and card ids. *)
Lemma card_run_unique actions :
  forall columns,
    uniqueIds columns -> allFresh columns actions ->
    uniqueIds (run columns actions).
Proof.
  unfold run. induction actions as [|a rest IH]; simpl; intros columns Hu Hf.
  - exact Hu.
  - destruct Hf as [Ha Hrest]. apply IH; [|exact Hrest].
    now apply card_step_unique.
Qed.

(** ** The drag overlay *)

Lemma find_findIndex {A} (p : A -> bool) (l : list A) :
  find p l = match findIndex p l with
             | Some i => nth_error l i
             | None => None
             end.
Proof.
  induction l as [|a l IH]; simpl; [reflexivity|].
  destruct (p a); [reflexivity|].
  rewrite IH. now destruct (findIndex p l).
Qed.

Lemma findActiveCard_locate columns active :
  findActiveCard columns active =
  match locate columns active with
  | Some (src, i) => nth_error (Column.cards src) i
  | None => None
  end.
Proof.
  induction columns as [|c rest IH]; simpl; [reflexivity|].
  rewrite find_findIndex.
  destruct (findIndex _ (Column.cards c)) as [i|] eqn:E; [|exact IH].
  apply findIndex_some in E. destruct E as (x & -> & _). reflexivity.
Qed.

(** The card that [handleDragStart] puts in the drag overlay is the card
    that [handleDragEnd] picks up for the same [active.id], whatever the
    overlay held before. *)
Theorem drag_start_shows_picked_card (columns : list Column)
        (activeCard : option Card) (active : string)
        (src : Column) (i : nat) (card : Card) :
  picked columns active src i card ->
  handleDragStart columns activeCard active = Some card.
Proof.
  intros [Hloc Hnth]. unfold handleDragStart.
  now rewrite findActiveCard_locate, Hloc, Hnth.
Qed.

Lemma drag_start_shows_picked_card_witness :
  handleDragStart
    [Column.mk "todo" "Todo" [Card.mk "c1" "a"];
     Column.mk "done" "Done" [Card.mk "c2" "b"; Card.mk "c3" "c"]]
    None "c3"
  = Some (Card.mk "c3" "c").
Proof.
  apply (drag_start_shows_picked_card _ None "c3"
           (Column.mk "done" "Done" [Card.mk "c2" "b"; Card.mk "c3" "c"]) 1).
  split; reflexivity.
Defined.

(** [handleDragStart] for an id no card has leaves the overlay state as it
    was: a stale card stays in it. *)
Theorem drag_start_missing_keeps_overlay (columns : list Column)
        (activeCard : option Card) (active : string) :
  ~ In active (cardIds columns) ->
  handleDragStart columns activeCard active = activeCard.
Proof.
  intros H. apply locate_none in H. unfold handleDragStart.
  now rewrite findActiveCard_locate, H.
Qed.

Lemma drag_start_missing_keeps_overlay_witness :
  handleDragStart [Column.mk "todo" "Todo" [Card.mk "c1" "a"]]
                  (Some (Card.mk "old" "x")) "zz"
  = Some (Card.mk "old" "x").
Proof.
  apply drag_start_missing_keeps_overlay. simpl. intuition discriminate.
Defined.

(** ** Dropping a card on a card of another column *)





(** ** Adding, editing and deleting compose *)

Lemma filter_out_fresh (x : string) (cs : list Card) :
  ~ In x (map Card.id cs) ->
  filter (fun c => negb (Card.id c =? x)) cs = cs.
Proof.
  intros H. apply filter_all. intros c Hc.
  destruct (String.eqb_spec (Card.id c) x) as [E|]; [|reflexivity].
  exfalso. apply H. rewrite <- E. now apply in_map.
Qed.

Lemma column_ids_in_cardIds columns col :
  In col columns -> incl (map Card.id (Column.cards col)) (cardIds columns).
Proof.
  intros Hin x Hx. unfold cardIds. apply in_flat_map. now exists col.
Qed.

(** Deleting the card that was just added, under the id it was given,
    gives back the snapshot, when no card had that id before. *)
Theorem add_then_delete_card (columns : list Column)
        (newId columnId title : string) :
  ~ In newId (cardIds columns) ->
  handleDeleteCard (handleAddCard columns newId columnId title) newId = columns.
Proof.
  intros Hfresh. unfold handleDeleteCard, handleAddCard.
  rewrite map_map. apply map_untouched. intros col Hin.
  assert (Hcol : ~ In newId (map Card.id (Column.cards col))).
  { intros H. apply Hfresh. now apply (column_ids_in_cardIds columns col). }
  transitivity (with_cards col (Column.cards col)); [|apply with_cards_same].
  destruct (Column.id col =? columnId); simpl.
  - unfold with_cards. simpl. f_equal. rewrite filter_app. simpl.
    rewrite String.eqb_refl. simpl. rewrite app_nil_r.
    now apply filter_out_fresh.
  - f_equal. now apply filter_out_fresh.
Qed.

Lemma add_then_delete_card_witness :
  let columns := [Column.mk "todo" "Todo" [Card.mk "c1" "a"]] in
  handleDeleteCard (handleAddCard columns "n" "todo" "new") "n" = columns.
Proof.
  intros columns. apply add_then_delete_card. simpl. intuition discriminate.
Defined.

Lemma findIndex_app_last {A} (p : A -> bool) (l : list A) (y : A) :
  (forall x, In x l -> p x = false) -> p y = true ->
  findIndex p (l ++ [y]) = Some (length l).
Proof.
  induction l as [|a l IH]; simpl; intros Hl Hy.
  - now rewrite Hy.
  - rewrite (Hl a) by auto. rewrite IH by auto. reflexivity.
Qed.

(** A card added under a fresh id to an existing column is found by the
    lookup of [handleDragEnd] in that column, behind the cards the column
    had; with unique column ids the board has one card more. *)
Theorem add_card_then_locate (columns : list Column)
        (newId columnId title : string) (col : Column) :
  NoDup (columnIds columns) ->
  findColumn columns columnId = Some col ->
  ~ In newId (cardIds columns) ->
  let after := handleAddCard columns newId columnId title in
  locate after newId
  = Some (with_cards col (Column.cards col ++ [Card.mk newId title]),
          length (Column.cards col)) /\
  cardCount after = S (cardCount columns).
Proof.
  intros Hnd Hcol Hfresh after. subst after. split.
  - clear Hnd. unfold handleAddCard. cbv zeta. unfold findColumn in Hcol.
    induction columns as [|c rest IH]; simpl in *; [discriminate|].
    assert (Hc : forall x, In x (Column.cards c) -> (Card.id x =? newId) = false).
    { intros x Hx. apply String.eqb_neq. intros E. apply Hfresh.
      unfold cardIds. simpl. apply in_or_app. left. rewrite <- E.
      now apply in_map. }
    assert (Hrest : ~ In newId (cardIds rest)).
    { intros H. apply Hfresh. unfold cardIds in *. simpl.
      apply in_or_app. now right. }
    destruct (Column.id c =? columnId).
    + injection Hcol as <-. simpl.
      rewrite (findIndex_app_last _ _ _ Hc); [reflexivity|].
      simpl. apply String.eqb_refl.
    + apply (proj2 (findIndex_none _ _)) in Hc. rewrite Hc.
      now apply IH.
  - unfold cardCount. rewrite !cardIds_allCards, !length_map.
    apply findColumn_some in Hcol. destruct Hcol as [Hin <-].
    rewrite (Permutation_length
               (add_card_perm columns newId (Column.id col) title Hnd
                  (in_map Column.id _ _ Hin))).
    reflexivity.
Qed.

Lemma add_card_then_locate_witness :
  let columns := [Column.mk "todo" "Todo" [Card.mk "c1" "a"];
                  Column.mk "done" "Done" [Card.mk "c2" "b"]] in
  locate (handleAddCard columns "n" "done" "new") "n"
  = Some (Column.mk "done" "Done" [Card.mk "c2" "b"; Card.mk "n" "new"], 1).
Proof.
  intros columns.
  assert (Hnd : NoDup (columnIds columns)).
  { unfold columns. simpl. repeat constructor; simpl; intuition discriminate. }
  refine (proj1 (add_card_then_locate columns "n" "done" "new"
                   (Column.mk "done" "Done" [Card.mk "c2" "b"])
                   Hnd eq_refl _)).
  simpl. intuition discriminate.
Defined.

Lemma findIndex_map {A} (p : A -> bool) (f : A -> A) (l : list A) :
  (forall x, p (f x) = p x) -> findIndex p (map f l) = findIndex p l.
Proof.
  intros H. induction l as [|a l IH]; simpl; [reflexivity|].
  now rewrite H, IH.
Qed.

(** After [handleEditCard] the lookup of [handleDragEnd] finds the card
    at the place it had, in the column it was in, with the new title. *)
Theorem edit_card_then_pick (columns : list Column) (cardId newTitle : string)
        (src : Column) (i : nat) (card : Card) :
  picked columns cardId src i card ->
  picked (handleEditCard columns cardId newTitle) cardId
         (with_cards src
            (map (fun c => if Card.id c =? cardId then with_title c newTitle
                           else c) (Column.cards src)))
         i (with_title card newTitle).
Proof.
  intros [Hloc Hnth].
  destruct (locate_some _ _ _ _ Hloc) as (_ & card' & Hnth' & Hid).
  rewrite Hnth in Hnth'. injection Hnth' as <-.
  split.
  - clear Hnth. unfold handleEditCard.
    induction columns as [|c rest IH]; simpl in *; [discriminate|].
    rewrite findIndex_map
      by (intros x; simpl; destruct (Card.id x =? cardId) eqn:E; simpl;
          now rewrite ?E).
    destruct (findIndex _ (Column.cards c)) as [j|].
    + now injection Hloc as <- <-.
    + now apply IH.
  - simpl. rewrite nth_error_map, Hnth. simpl.
    apply String.eqb_eq in Hid. now rewrite Hid.
Qed.

Lemma edit_card_then_pick_witness :
  let columns := [Column.mk "todo" "Todo" [Card.mk "c1" "a"; Card.mk "c2" "b"]] in
  picked (handleEditCard columns "c2" "z") "c2"
         (Column.mk "todo" "Todo" [Card.mk "c1" "a"; Card.mk "c2" "z"])
         1 (Card.mk "c2" "z").
Proof.
  intros columns.
  exact (edit_card_then_pick columns "c2" "z"
           (Column.mk "todo" "Todo" [Card.mk "c1" "a"; Card.mk "c2" "b"])
           1 (Card.mk "c2" "b") (conj eq_refl eq_refl)).
Defined.

(** Two edits of one card: the second title is the one that stays, and an
    edit changes no card id. *)
Theorem edit_card_last_wins (columns : list Column) (cardId t1 t2 : string) :
  handleEditCard (handleEditCard columns cardId t1) cardId t2
  = handleEditCard columns cardId t2 /\
  cardIds (handleEditCard columns cardId t1) = cardIds columns.
Proof.
  split; [|apply cardIds_edit].
  unfold handleEditCard. rewrite map_map. apply map_ext. intros col.
  unfold with_cards. simpl. f_equal. rewrite map_map. apply map_ext.
  intros card. destruct (Card.id card =? cardId) eqn:E; simpl; now rewrite E.
Qed.

(** [handleDeleteCard] leaves no card with the id, keeps the other ids in
    their order, and deleting again changes nothing. *)
Theorem delete_card_effect (columns : list Column) (cardId : string) :
  ~ In cardId (cardIds (handleDeleteCard columns cardId)) /\
  cardIds (handleDeleteCard columns cardId)
  = filter (fun y => negb (y =? cardId)) (cardIds columns) /\
  handleDeleteCard (handleDeleteCard columns cardId) cardId
  = handleDeleteCard columns cardId.
Proof.
  assert (H : ~ In cardId (cardIds (handleDeleteCard columns cardId))).
  { rewrite cardIds_delete. intros Hin. apply filter_In in Hin.
    destruct Hin as [_ Hin]. rewrite String.eqb_refl in Hin. discriminate. }
  split; [exact H|]. split; [apply cardIds_delete|].
  now apply handleDeleteCard_missing.
Qed.

Lemma delete_card_count_witness :
  let columns := [Column.mk "todo" "Todo" [Card.mk "c1" "a"; Card.mk "c2" "b"]] in
  S (cardCount (handleDeleteCard columns "c1")) = cardCount columns.
Proof.
  intros columns. apply delete_card_count.
  - simpl. repeat constructor; simpl; intuition discriminate.
  - simpl. auto.
Defined.

(** [handleDragEnd] on a snapshot with unique ids only rearranges the
    cards: the cards of all columns together are the same cards, each as
    often as before. *)
Theorem drag_rearranges_cards (columns : list Column) (active : string)
        (over : option string) :
  uniqueIds columns ->
  Permutation (allCards (handleDragEnd columns active over))
              (allCards columns).
Proof. intros [Hcol Hcard]. now apply drag_permutes_cards. Qed.

Lemma sample_board_unique :
  uniqueIds [Column.mk "todo" "Todo" [Card.mk "c1" "a"; Card.mk "c2" "b"];
             Column.mk "done" "Done" [Card.mk "c3" "c"]].
Proof.
  split; simpl; repeat constructor; simpl; intuition discriminate.
Qed.

Lemma drag_rearranges_cards_witness :
  let columns := [Column.mk "todo" "Todo" [Card.mk "c1" "a"; Card.mk "c2" "b"];
                  Column.mk "done" "Done" [Card.mk "c3" "c"]] in
  Permutation (allCards (handleDragEnd columns "c1" (Some "c3")))
              (allCards columns).
Proof.
  intros columns. apply drag_rearranges_cards. apply sample_board_unique.
Defined.

Lemma card_run_unique_witness :
  let columns := [Column.mk "todo" "Todo" [Card.mk "c1" "a"; Card.mk "c2" "b"];
                  Column.mk "done" "Done" [Card.mk "c3" "c"]] in
  uniqueIds (run columns [AddCard "n" "done" "new"; DragEnd "c1" (Some "n");
                          EditCard "c2" "z"; DeleteCard "c3"]).
Proof.
  intros columns. apply card_run_unique.
  - apply sample_board_unique.
  - simpl. intuition discriminate.
Defined.

End KanbanFacts.

(** * Properties of the tree engine *)

Module TreeFacts.
Import Tree.

(** Induction over a forest: the first root has no children array, or it
    has one, itself a forest. *)
Section ForestInduction.
Variable P : list TreeNode -> Prop.
Hypothesis Hnil : P [].
Hypothesis Hleaf :
  forall i nm e l h rest, P rest -> P (mkNode i nm None e l h :: rest).
Hypothesis Hbranch :
  forall i nm ch e l h rest,
    P ch -> P rest -> P (mkNode i nm (Some ch) e l h :: rest).

Lemma forest_ind_cons : forall n rest, P rest -> P (n :: rest).
Proof.
  fix IH 1. intros [i nm [ch|] e l h] rest Hrest.
  - apply Hbranch; [|exact Hrest].
    revert ch. fix IHch 1. intros [|c cs].
    + exact Hnil.
    + apply IH. apply IHch.
  - apply Hleaf. exact Hrest.
Qed.

Lemma forest_ind : forall nodes, P nodes.
Proof.
  induction nodes as [|n rest IH]; [exact Hnil | now apply forest_ind_cons].
Qed.
End ForestInduction.

(** Unfolding equations at the lists the source functions work on. *)
Lemma filterThenMap_spec {A B} (p : A -> bool) (f : A -> B) (l : list A) :
  filterThenMap p f l = map f (filter p l).
Proof.
  induction l as [|a l IH]; simpl; [reflexivity|].
  destruct (p a); simpl; now rewrite IH.
Qed.

Lemma updateNode_branch x u i nm ch e l h rest :
  updateNode (mkNode i nm (Some ch) e l h :: rest) x u =
  (if i =? x then u (mkNode i nm (Some ch) e l h)
   else mkNode i nm (Some (updateNode ch x u)) e l h) :: updateNode rest x u.
Proof. reflexivity. Qed.

Lemma updateNode_leaf x u i nm e l h rest :
  updateNode (mkNode i nm None e l h :: rest) x u =
  (if i =? x then u (mkNode i nm None e l h) else mkNode i nm None e l h)
    :: updateNode rest x u.
Proof. unfold updateNode. simpl. now destruct (i =? x). Qed.

Lemma deleteNode_branch x i nm ch e l h rest :
  deleteNode (mkNode i nm (Some ch) e l h :: rest) x =
  if i =? x then deleteNode rest x
  else mkNode i nm (Some (deleteNode ch x)) e l h :: deleteNode rest x.
Proof.
  unfold deleteNode. simpl. destruct (i =? x); simpl; [reflexivity|].
  now rewrite filterThenMap_spec.
Qed.

Lemma deleteNode_leaf x i nm e l h rest :
  deleteNode (mkNode i nm None e l h :: rest) x =
  if i =? x then deleteNode rest x
  else mkNode i nm None e l h :: deleteNode rest x.
Proof. unfold deleteNode. simpl. now destruct (i =? x). Qed.

Lemma ids_branch i nm ch e l h rest :
  ids (mkNode i nm (Some ch) e l h :: rest) = i :: ids ch ++ ids rest.
Proof. reflexivity. Qed.

Lemma ids_leaf i nm e l h rest :
  ids (mkNode i nm None e l h :: rest) = i :: ids rest.
Proof. reflexivity. Qed.

Lemma ids_app l1 l2 : ids (l1 ++ l2) = ids l1 ++ ids l2.
Proof. unfold ids. apply flat_map_app. Qed.

Lemma findLoop_branch x w r k i nm ch e l h rest :
  findLoop x (findInside x) w r k (mkNode i nm (Some ch) e l h :: rest) =
  if i =? x then Some (mkFound (mkNode i nm (Some ch) e l h) w k r)
  else match findLoop x (findInside x) ch false 0 ch with
       | Some found => Some found
       | None => findLoop x (findInside x) w r (S k) rest
       end.
Proof. reflexivity. Qed.

Lemma findLoop_leaf x w r k i nm e l h rest :
  findLoop x (findInside x) w r k (mkNode i nm None e l h :: rest) =
  if i =? x then Some (mkFound (mkNode i nm None e l h) w k r)
  else findLoop x (findInside x) w r (S k) rest.
Proof. reflexivity. Qed.

Ltac forest_rewrite :=
  rewrite ?updateNode_branch, ?updateNode_leaf, ?deleteNode_branch,
    ?deleteNode_leaf, ?ids_branch, ?ids_leaf, ?findLoop_branch,
    ?findLoop_leaf in *.

(** Handlers given an id that the forest does not hold. *)
Lemma updateNode_missing x u nodes :
  ~ In x (ids nodes) -> updateNode nodes x u = nodes.
Proof.
  induction nodes as [|i nm e l h rest IH|i nm ch e l h rest IHch IH]
    using forest_ind; intros Hx; [reflexivity| |]; forest_rewrite.
  - simpl in Hx. destruct (String.eqb_spec i x); [tauto|].
    f_equal. apply IH. tauto.
  - simpl in Hx. rewrite in_app_iff in Hx.
    destruct (String.eqb_spec i x); [tauto|].
    rewrite IHch, IH by tauto. reflexivity.
Qed.

Lemma deleteNode_missing x nodes :
  ~ In x (ids nodes) -> deleteNode nodes x = nodes.
Proof.
  induction nodes as [|i nm e l h rest IH|i nm ch e l h rest IHch IH]
    using forest_ind; intros Hx; [reflexivity| |]; forest_rewrite.
  - simpl in Hx. destruct (String.eqb_spec i x); [tauto|].
    f_equal. apply IH. tauto.
  - simpl in Hx. rewrite in_app_iff in Hx.
    destruct (String.eqb_spec i x); [tauto|].
    rewrite IHch, IH by tauto. reflexivity.
Qed.

Lemma findLoop_none x nodes :
  forall w r k,
    findLoop x (findInside x) w r k nodes = None <-> ~ In x (ids nodes).
Proof.
  induction nodes as [|i nm e l h rest IH|i nm ch e l h rest IHch IH]
    using forest_ind; intros w r k; forest_rewrite.
  - simpl. tauto.
  - simpl. destruct (String.eqb_spec i x).
    + split; [discriminate | tauto].
    + rewrite IH. tauto.
  - simpl. rewrite in_app_iff. destruct (String.eqb_spec i x).
    + split; [discriminate | tauto].
    + destruct (findLoop x (findInside x) ch false 0 ch) eqn:E.
      * split; [discriminate|]. intros H. exfalso.
        assert (Hn : ~ In x (ids ch)) by tauto.
        apply (IHch ch false 0) in Hn. congruence.
      * apply IHch in E. rewrite IH. tauto.
Qed.

Lemma findNode_none x nodes :
  findNode nodes x = None <-> ~ In x (ids nodes).
Proof. apply findLoop_none. Qed.

Lemma addChildNode_updateNode parentId newNode nodes :
  addChildNode nodes parentId newNode =
  updateNode nodes parentId (appendChild newNode).
Proof.
  unfold addChildNode, updateNode.
  induction nodes as [|i nm e l h rest IH|i nm ch e l h rest IHch IH]
    using forest_ind; [reflexivity| |]; simpl.
  - rewrite IH. now destruct (i =? parentId).
  - rewrite IH, IHch. reflexivity.
Qed.

Lemma dragNode_missing_active nodes x over :
  ~ In x (ids nodes) -> handleDragEnd nodes x over = Returned nodes.
Proof.
  intros Hx. apply findNode_none in Hx. unfold handleDragEnd.
  rewrite Hx. destruct over as [o|]; [|reflexivity].
  now destruct (x =? o).
Qed.

Lemma dragNode_missing_over nodes a x :
  ~ In x (ids nodes) -> handleDragEnd nodes a (Some x) = Returned nodes.
Proof.
  intros Hx. apply findNode_none in Hx. unfold handleDragEnd.
  rewrite Hx. destruct (a =? x); [reflexivity|].
  now destruct (findNode nodes a).
Qed.

(** Membership in a forest, one root at a time. *)
Lemma inForest_leaf n i nm e l h rest :
  inForest n (mkNode i nm None e l h :: rest) <->
  n = mkNode i nm None e l h \/ inForest n rest.
Proof.
  split.
  - intros H. inversion H; subst; auto. discriminate.
  - intros [->|H]; [constructor | now apply inForest_later].
Qed.

Lemma inForest_branch n i nm ch e l h rest :
  inForest n (mkNode i nm (Some ch) e l h :: rest) <->
  n = mkNode i nm (Some ch) e l h \/ inForest n ch \/ inForest n rest.
Proof.
  split.
  - intros H. inversion H as [|? ? ? Hc|]; subst; auto.
    simpl in Hc. injection Hc as ->. auto.
  - intros [->|[H|H]].
    + constructor.
    + now apply inForest_below with (ch := ch).
    + now apply inForest_later.
Qed.

Lemma inForest_nil n : ~ inForest n [].
Proof. intros H. inversion H. Qed.

Lemma inForest_ids n nodes : inForest n nodes -> In (id n) (ids nodes).
Proof.
  induction 1 as [rest|m ch rest Hc _ IH|m rest _ IH].
  - destruct n as [i nm [c|] e l h]; simpl; auto.
  - destruct m as [i nm c e l h]. simpl in Hc. subst c.
    rewrite ids_branch. right. apply in_or_app. now left.
  - unfold ids in *. simpl. apply in_or_app. now right.
Qed.

Lemma ids_inForest x nodes :
  In x (ids nodes) -> exists n, inForest n nodes /\ id n = x.
Proof.
  induction nodes as [|i nm e l h rest IH|i nm ch e l h rest IHch IH]
    using forest_ind; forest_rewrite.
  - intros [].
  - intros [<-|H].
    + eexists. split; [constructor | reflexivity].
    + destruct (IH H) as (n & Hn & Hid). exists n. split; auto.
      now apply inForest_later.
  - intros [<-|H].
    + eexists. split; [constructor | reflexivity].
    + apply in_app_or in H. destruct H as [H|H].
      * destruct (IHch H) as (n & Hn & Hid). exists n. split; auto.
        now apply inForest_below with (ch := ch).
      * destruct (IH H) as (n & Hn & Hid). exists n. split; auto.
        now apply inForest_later.
Qed.

(** C8. Renaming a node to the name it has changes nothing: when the
    nodes that carry the id (one node, ids being unique) are named
    [sameName], [handleEdit] returns a forest equal to its input. *)
Theorem edit_same_name (nodes : list TreeNode) (x sameName : string) :
  (forall n, inForest n nodes -> id n = x -> name n = sameName) ->
  handleEdit nodes x sameName = nodes.
Proof.
  unfold handleEdit.
  induction nodes as [|i nm e l h rest IH|i nm ch e l h rest IHch IH]
    using forest_ind; intros H; [reflexivity| |]; forest_rewrite.
  - rewrite IH by (intros n Hn; apply H; now apply inForest_later).
    destruct (String.eqb_spec i x) as [Hi|]; [|reflexivity].
    rewrite <- (H (mkNode i nm None e l h)); [reflexivity | constructor | exact Hi].
  - rewrite IH by (intros n Hn; apply H; now apply inForest_later).
    rewrite IHch
      by (intros n Hn; apply H; now apply inForest_below with (ch := ch)).
    destruct (String.eqb_spec i x) as [Hi|]; [|reflexivity].
    rewrite <- (H (mkNode i nm (Some ch) e l h));
      [reflexivity | constructor | exact Hi].
Qed.

Lemma edit_same_name_witness :
  let nodes := [mkNode "a" "Docs" (Some [mkNode "b" "Work" None None None None])
                       (Some true) None None] in
  handleEdit nodes "b" "Work" = nodes.
Proof.
  intros nodes. apply (edit_same_name nodes "b" "Work").
  intros n Hn Hid. unfold nodes in Hn.
  apply inForest_branch in Hn. destruct Hn as [->|[Hn|Hn]].
  - discriminate.
  - apply inForest_leaf in Hn. destruct Hn as [->|Hn]; [reflexivity|].
    now apply inForest_nil in Hn.
  - now apply inForest_nil in Hn.
Defined.

(** [isDescendant] searches the whole subtree of [ancestor]. *)
Lemma isDescendant_leaf x i nm e l h :
  isDescendant x (mkNode i nm None e l h) = (i =? x).
Proof. simpl. now destruct (i =? x). Qed.

Lemma isDescendant_branch x i nm ch e l h :
  isDescendant x (mkNode i nm (Some ch) e l h) =
  (i =? x) || existsb (isDescendant x) ch.
Proof. simpl. now destruct (i =? x). Qed.

Lemma existsb_isDescendant x nodes :
  existsb (isDescendant x) nodes = true <-> In x (ids nodes).
Proof.
  induction nodes as [|i nm e l h rest IH|i nm ch e l h rest IHch IH]
    using forest_ind.
  - simpl. split; [discriminate | tauto].
  - cbn [existsb]. rewrite isDescendant_leaf, ids_leaf, orb_true_iff, IH.
    simpl. now rewrite String.eqb_eq.
  - cbn [existsb]. rewrite isDescendant_branch, ids_branch.
    rewrite !orb_true_iff, IH, IHch, String.eqb_eq. simpl.
    rewrite in_app_iff. tauto.
Qed.

Lemma isDescendant_spec x n : isDescendant x n = true <-> In x (idsOf n).
Proof.
  destruct n as [i nm [ch|] e l h].
  - rewrite isDescendant_branch, orb_true_iff, existsb_isDescendant, String.eqb_eq.
    simpl. tauto.
  - rewrite isDescendant_leaf, String.eqb_eq. simpl. tauto.
Qed.

(** With unique ids, [findNode] returns the one node that has the id. *)
Lemma findLoop_unique n nodes :
  forall w r k,
    NoDup (ids nodes) -> inForest n nodes ->
    exists found,
      findLoop (id n) (findInside (id n)) w r k nodes = Some found /\
      node found = n.
Proof.
  induction nodes as [|i nm e l h rest IH|i nm ch e l h rest IHch IH]
    using forest_ind; intros w r k Hnd Hin; forest_rewrite.
  - now apply inForest_nil in Hin.
  - apply inForest_leaf in Hin. inversion Hnd as [|? ? Hi Hnd']; subst.
    destruct Hin as [->|Hin].
    + simpl. rewrite String.eqb_refl. eexists. split; reflexivity.
    + destruct (String.eqb_spec i (id n)) as [->|_].
      * exfalso. apply Hi. now apply inForest_ids.
      * now apply IH.
  - apply inForest_branch in Hin. inversion Hnd as [|? ? Hi Hnd']; subst.
    rewrite in_app_iff in Hi.
    destruct Hin as [->|Hin].
    + simpl. rewrite String.eqb_refl. eexists. split; reflexivity.
    + destruct (String.eqb_spec i (id n)) as [->|_].
      * exfalso. apply Hi. destruct Hin as [Hin|Hin];
          apply inForest_ids in Hin; tauto.
      * destruct Hin as [Hin|Hin].
        -- apply NoDup_app_remove_r in Hnd'.
           destruct (IHch ch false 0 Hnd' Hin) as (found & -> & Hf).
           now exists found.
        -- assert (Hno : ~ In (id n) (ids ch)).
           { intros Hc. apply inForest_ids in Hin.
             apply NoDup_app_inv in Hnd'. destruct Hnd' as (_ & _ & Hd).
             now apply (Hd (id n)). }
           apply (findLoop_none _ _ ch false 0) in Hno. rewrite Hno.
           apply NoDup_app_remove_l in Hnd'. now apply IH.
Qed.

Lemma findNode_unique n nodes :
  NoDup (ids nodes) -> inForest n nodes ->
  exists found, findNode nodes (id n) = Some found /\ node found = n.
Proof. apply findLoop_unique. Qed.

Lemma findLoop_id x nodes :
  forall w r k found,
    findLoop x (findInside x) w r k nodes = Some found -> id (node found) = x.
Proof.
  induction nodes as [|i nm e l h rest IH|i nm ch e l h rest IHch IH]
    using forest_ind; intros w r k found; forest_rewrite.
  - discriminate.
  - destruct (String.eqb_spec i x) as [->|_]; [|apply IH].
    intros H. now injection H as <-.
  - destruct (String.eqb_spec i x) as [->|_].
    + intros H. now injection H as <-.
    + destruct (findLoop x (findInside x) ch false 0 ch) eqn:E; [|apply IH].
      intros H. injection H as <-. eapply IHch; eauto.
Qed.

(** The cycle guard in terms of what [findNode] returns. *)
Lemma handleDragEnd_guard nodes a b found :
  findNode nodes a = Some found -> In b (idsOf (node found)) ->
  handleDragEnd nodes a (Some b) = Returned nodes.
Proof.
  intros Hf Hb. unfold handleDragEnd. rewrite Hf.
  destruct (String.eqb_spec a b) as [|Hne]; [reflexivity|].
  destruct (findNode nodes b); [|reflexivity].
  pose proof (findLoop_id _ _ _ _ _ _ Hf) as Hid.
  apply isDescendant_spec in Hb. rewrite Hb.
  destruct (node found) as [i nm [ch|] e l h]; [reflexivity|].
  rewrite isDescendant_leaf in Hb. apply String.eqb_eq in Hb.
  simpl in Hid. congruence.
Qed.

(** C3. Cycle rejection: with unique ids, dropping the node [a] on itself,
    or on a node whose id lies in the subtree rooted at [a], leaves the
    forest unchanged. *)
Theorem cycle_rejection (nodes : list TreeNode) (a : TreeNode) (B : string) :
  NoDup (ids nodes) ->
  inForest a nodes ->
  In B (idsOf a) ->
  handleDragEnd nodes (id a) (Some B) = Returned nodes.
Proof.
  intros Hnd Ha HB.
  destruct (findNode_unique a nodes Hnd Ha) as (found & Hf & Hn).
  apply (handleDragEnd_guard nodes (id a) B found Hf). now rewrite Hn.
Qed.

Lemma cycle_rejection_witness :
  let nodes := [mkNode "a" "A" (Some [mkNode "b" "B" (Some []) None None None])
                       None None None;
                mkNode "c" "C" None None None None] in
  handleDragEnd nodes "a" (Some "b") = Returned nodes /\
  handleDragEnd nodes "a" (Some "a") = Returned nodes.
Proof.
  intros nodes.
  assert (Hnd : NoDup (ids nodes)).
  { unfold nodes. simpl. repeat constructor; simpl; intuition discriminate. }
  assert (Ha : inForest (mkNode "a" "A" (Some [mkNode "b" "B" (Some []) None None None])
                                None None None) nodes) by constructor.
  split.
  - apply (cycle_rejection nodes _ "b" Hnd Ha). simpl. auto.
  - apply (cycle_rejection nodes _ "a" Hnd Ha). simpl. auto.
Defined.

(** [findNode] after [updateNode] on the same id. *)
Lemma findLoop_cons x w r k n rest :
  findLoop x (findInside x) w r k (n :: rest) =
  if id n =? x then Some (mkFound n w k r)
  else match findInside x n with
       | Some found => Some found
       | None => findLoop x (findInside x) w r (S k) rest
       end.
Proof. reflexivity. Qed.

Lemma findLoop_updateNode x u nodes :
  (forall m, id (u m) = id m) ->
  forall w1 r1 k1 w2 r2 k2 found,
    findLoop x (findInside x) w1 r1 k1 nodes = Some found ->
    exists found',
      findLoop x (findInside x) w2 r2 k2 (updateNode nodes x u) = Some found' /\
      node found' = u (node found).
Proof.
  intros Hu.
  induction nodes as [|i nm e l h rest IH|i nm ch e l h rest IHch IH]
    using forest_ind; intros w1 r1 k1 w2 r2 k2 found.
  - discriminate.
  - rewrite findLoop_leaf, updateNode_leaf.
    destruct (String.eqb_spec i x) as [Hi|Hi].
    + intros H. injection H as <-. rewrite findLoop_cons, Hu. simpl.
      apply String.eqb_eq in Hi. rewrite Hi. eexists. split; reflexivity.
    + apply String.eqb_neq in Hi. rewrite findLoop_leaf, Hi. apply IH.
  - rewrite findLoop_branch, updateNode_branch.
    destruct (String.eqb_spec i x) as [Hi|Hi].
    + intros H. injection H as <-. rewrite findLoop_cons, Hu. simpl.
      apply String.eqb_eq in Hi. rewrite Hi. eexists. split; reflexivity.
    + apply String.eqb_neq in Hi. rewrite findLoop_branch, Hi.
      destruct (findLoop x (findInside x) ch false 0 ch) as [f|] eqn:E.
      * intros H. injection H as <-.
        destruct (IHch ch false 0 (updateNode ch x u) false 0 f E)
          as (f' & -> & Hf'). now exists f'.
      * apply findLoop_none in E. rewrite (updateNode_missing x u ch E).
        apply (findLoop_none x ch ch false 0) in E. rewrite E. apply IH.
Qed.

Lemma nodeAt_updateNode x u nodes n :
  (forall m, id (u m) = id m) ->
  nodeAt nodes x = Some n -> nodeAt (updateNode nodes x u) x = Some (u n).
Proof.
  unfold nodeAt, findNode. intros Hu H.
  destruct (findLoop x (findInside x) nodes true 0 nodes) as [f|] eqn:E;
    [|discriminate].
  injection H as <-.
  destruct (findLoop_updateNode x u nodes Hu _ _ _
              (updateNode nodes x u) true 0 f E) as (f' & -> & Hf').
  simpl. now rewrite Hf'.
Qed.

(** C6. Lazy loading of the node [n] found for an id.  The first setter
    gives it isLoading = true.  When the awaited fetch resolves, the node
    gets the fetched list as children, hasLoaded = true, isLoading = false
    and isExpanded = true.  When the fetch rejects, the node gets
    isLoading = false and keeps its children and hasLoaded.  In both cases
    the handler returns: nothing is thrown to its caller. *)
Theorem load_children (nodes : list TreeNode) (x : string) (n : TreeNode)
        (fetched : list TreeNode) :
  nodeAt nodes x = Some n ->
  (exists loading final,
      handleLoadChildren nodes x (Returned fetched) = Returned (loading, final) /\
      nodeAt loading x
      = Some (mkNode (id n) (name n) (children n) (isExpanded n) (Some true)
                     (hasLoaded n)) /\
      nodeAt final x
      = Some (mkNode (id n) (name n) (Some fetched) (Some true) (Some false)
                     (Some true))) /\
  (exists loading final,
      handleLoadChildren nodes x Thrown = Returned (loading, final) /\
      nodeAt loading x
      = Some (mkNode (id n) (name n) (children n) (isExpanded n) (Some true)
                     (hasLoaded n)) /\
      nodeAt final x
      = Some (mkNode (id n) (name n) (children n) (isExpanded n) (Some false)
                     (hasLoaded n))).
Proof.
  intros Hn.
  assert (Hstart : nodeAt (loadStarted nodes x) x = Some (with_isLoading n true)).
  { apply (nodeAt_updateNode x (fun node => with_isLoading node true));
      [reflexivity | exact Hn]. }
  split.
  - exists (loadStarted nodes x), (loadResolved (loadStarted nodes x) x fetched).
    repeat split; [exact Hstart|].
    unfold loadResolved.
    apply (nodeAt_updateNode x
             (fun node =>
                with_isExpanded
                  (with_hasLoaded
                     (with_isLoading (with_children node fetched) false) true)
                  true) _ _ (fun _ => eq_refl)) in Hstart.
    rewrite Hstart. reflexivity.
  - exists (loadStarted nodes x), (loadRejected (loadStarted nodes x) x).
    repeat split; [exact Hstart|].
    unfold loadRejected.
    apply (nodeAt_updateNode x (fun node => with_isLoading node false) _ _
                             (fun _ => eq_refl)) in Hstart.
    rewrite Hstart. reflexivity.
Qed.

(** The lazy-load example: a node without children array and with
    hasLoaded = false ends up with the two fetched children. *)
Lemma load_children_witness :
  let N := mkNode "n" "Projects" None (Some false) None (Some false) in
  exists loading final,
    handleLoadChildren [N] "n" (Returned (simulateLazyLoad "k1" "k2"))
    = Returned (loading, final) /\
    nodeAt loading "n"
    = Some (mkNode "n" "Projects" None (Some false) (Some true) (Some false)) /\
    nodeAt final "n"
    = Some (mkNode "n" "Projects"
                   (Some [mkNode "k1" "Child 1" None None None (Some false);
                          mkNode "k2" "Child 2" None None None (Some false)])
                   (Some true) (Some false) (Some true)).
Proof.
  intros N.
  exact (proj1 (load_children [N] "n" N (simulateLazyLoad "k1" "k2") eq_refl)).
Defined.

(** With unique ids, [updateNode] rewrites one subtree and nothing else. *)
Lemma ids_cons n rest : ids (n :: rest) = idsOf n ++ ids rest.
Proof. reflexivity. Qed.

Lemma idsOf_head n : exists tl, idsOf n = id n :: tl.
Proof. destruct n as [i nm [ch|] e l h]; simpl; eauto. Qed.

Lemma findLoop_updateNode_ids x nodes :
  forall w r k found,
    NoDup (ids nodes) ->
    findLoop x (findInside x) w r k nodes = Some found ->
    exists pre post,
      ids nodes = pre ++ idsOf (node found) ++ post /\
      forall u, ids (updateNode nodes x u)
                = pre ++ idsOf (u (node found)) ++ post.
Proof.
  induction nodes as [|i nm e l h rest IH|i nm ch e l h rest IHch IH]
    using forest_ind; intros w r k found Hnd.
  - discriminate.
  - rewrite findLoop_leaf. rewrite ids_leaf in Hnd.
    inversion Hnd as [|? ? Hi Hnd']; subst.
    destruct (String.eqb_spec i x) as [->|Hne].
    + intros H. injection H as <-. exists [], (ids rest). split; [reflexivity|].
      intros u. rewrite updateNode_leaf, String.eqb_refl, ids_cons.
      now rewrite (updateNode_missing x u rest Hi).
    + intros H. destruct (IH _ _ _ _ Hnd' H) as (pre & post & E1 & E2).
      exists (i :: pre), post. rewrite ids_leaf, E1. split; [reflexivity|].
      intros u. rewrite updateNode_leaf.
      apply String.eqb_neq in Hne. rewrite Hne, ids_leaf, E2. reflexivity.
  - rewrite findLoop_branch. rewrite ids_branch in Hnd.
    inversion Hnd as [|? ? Hi Hnd']; subst.
    destruct (NoDup_app_inv _ _ Hnd') as (Hch & Hrest & Hdisj).
    rewrite in_app_iff in Hi.
    destruct (String.eqb_spec i x) as [->|Hne].
    + intros H. injection H as <-.
      exists [], (ids rest). split; [reflexivity|].
      intros u. rewrite updateNode_branch, String.eqb_refl, ids_cons.
      rewrite (updateNode_missing x u rest); [reflexivity | tauto].
    + apply String.eqb_neq in Hne.
      destruct (findLoop x (findInside x) ch false 0 ch) as [f|] eqn:E.
      * intros H. injection H as <-.
        destruct (IHch _ _ _ _ Hch E) as (pre & post & E1 & E2).
        exists (i :: pre), (post ++ ids rest). rewrite ids_branch, E1.
        split; [now rewrite <- !app_assoc|].
        intros u. rewrite updateNode_branch, Hne, ids_branch, E2.
        assert (Hx : In x (ids ch)).
        { destruct (in_dec string_dec x (ids ch)) as [|Hn]; [assumption|].
          apply (findLoop_none x ch ch false 0) in Hn. congruence. }
        rewrite (updateNode_missing x u rest) by (now apply Hdisj).
        now rewrite <- !app_assoc.
      * intros H. destruct (IH _ _ _ _ Hrest H) as (pre & post & E1 & E2).
        apply findLoop_none in E.
        exists (i :: ids ch ++ pre), post. rewrite ids_branch, E1.
        split; [simpl; now rewrite <- !app_assoc|].
        intros u. rewrite updateNode_branch, Hne, ids_branch, E2.
        rewrite (updateNode_missing x u ch E). simpl.
        now rewrite <- !app_assoc.
Qed.

Lemma idsOf_appendChild newNode p :
  idsOf (appendChild newNode p) = idsOf p ++ idsOf newNode.
Proof.
  destruct p as [i nm [ch|] e l h]; unfold appendChild; simpl.
  - f_equal. fold (ids (ch ++ [newNode])). rewrite ids_app. simpl.
    now rewrite app_nil_r.
  - now rewrite app_nil_r.
Qed.

Lemma view_findLoop x l :
  forall w1 r1 k1 w2 r2 k2,
    view (findLoop x (findInside x) w1 r1 k1 l)
    = view (findLoop x (findInside x) w2 r2 k2 l).
Proof.
  induction l as [|n rest IH]; intros; [reflexivity|].
  rewrite !findLoop_cons. destruct (id n =? x); [reflexivity|].
  destruct (findInside x n); [reflexivity | apply IH].
Qed.

Lemma findLoop_app x w r l1 l2 :
  forall k,
    findLoop x (findInside x) w r k (l1 ++ l2) =
    match findLoop x (findInside x) w r k l1 with
    | Some found => Some found
    | None => findLoop x (findInside x) w r (k + length l1) l2
    end.
Proof.
  induction l1 as [|n rest IH]; intros k.
  - simpl. now rewrite Nat.add_0_r.
  - rewrite <- app_comm_cons, !findLoop_cons.
    destruct (id n =? x); [reflexivity|].
    destruct (findInside x n); [reflexivity|].
    rewrite IH. simpl. now rewrite Nat.add_succ_r.
Qed.

Lemma findInside_none x n : ~ In x (idsOf n) -> findInside x n = None.
Proof.
  destruct n as [i nm [ch|] e l h]; simpl; intros H; [|reflexivity].
  apply findLoop_none. tauto.
Qed.

Lemma findLoop_single_none x w r k n :
  ~ In x (idsOf n) -> findLoop x (findInside x) w r k [n] = None.
Proof.
  intros H. apply findLoop_none. unfold ids. simpl. now rewrite app_nil_r.
Qed.

Lemma id_updateOne x u n :
  (forall m, id (u m) = id m) -> id (updateOne x u n) = id n.
Proof.
  intros Hu. destruct n as [i nm [ch|] e l h]; simpl;
    destruct (i =? x); auto; apply Hu.
Qed.

Lemma map_id_updateNode x u nodes :
  (forall m, id (u m) = id m) -> map id (updateNode nodes x u) = map id nodes.
Proof.
  intros Hu. unfold updateNode. rewrite map_map. apply map_ext.
  intros n. now apply id_updateOne.
Qed.

Lemma appendChild_branch newNode i nm ch e l h :
  appendChild newNode (mkNode i nm (Some ch) e l h)
  = mkNode i nm (Some (ch ++ [newNode])) (Some true) l h.
Proof. reflexivity. Qed.

Lemma appendChild_leaf newNode i nm e l h :
  appendChild newNode (mkNode i nm None e l h)
  = mkNode i nm (Some [newNode]) (Some true) l h.
Proof. reflexivity. Qed.

Lemma view_appendChild_other x parentId newNode nodes :
  x <> parentId -> ~ In x (idsOf newNode) ->
  forall w1 r1 k1 w2 r2 k2,
    view (findLoop x (findInside x) w1 r1 k1
                   (updateNode nodes parentId (appendChild newNode)))
    = view (findLoop x (findInside x) w2 r2 k2 nodes).
Proof.
  intros Hx Hnew.
  induction nodes as [|i nm e l h rest IH|i nm ch e l h rest IHch IH]
    using forest_ind; intros w1 r1 k1 w2 r2 k2.
  - reflexivity.
  - rewrite updateNode_leaf, (findLoop_leaf x w2).
    destruct (String.eqb_spec i parentId) as [->|Hi].
    + rewrite appendChild_leaf, findLoop_branch.
      assert (Hp : (parentId =? x) = false) by (apply String.eqb_neq; congruence).
      rewrite Hp, (findLoop_single_none x _ _ _ _ Hnew). apply IH.
    + rewrite findLoop_leaf. destruct (i =? x); [reflexivity | apply IH].
  - rewrite updateNode_branch, (findLoop_branch x w2).
    destruct (String.eqb_spec i parentId) as [->|Hi].
    + rewrite appendChild_branch, findLoop_branch.
      assert (Hp : (parentId =? x) = false) by (apply String.eqb_neq; congruence).
      rewrite Hp, findLoop_app, (findLoop_single_none x _ _ _ _ Hnew).
      pose proof (view_findLoop x ch (ch ++ [newNode]) false 0 ch false 0) as V.
      destruct (findLoop x (findInside x) (ch ++ [newNode]) false 0 ch);
        destruct (findLoop x (findInside x) ch false 0 ch);
        try discriminate V; [exact V | apply IH].
    + rewrite findLoop_branch. destruct (i =? x).
      * unfold view, shallow. simpl. rewrite map_id_updateNode; [reflexivity|].
        intros m. reflexivity.
      * pose proof (IHch (updateNode ch parentId (appendChild newNode))
                         false 0 ch false 0) as V.
        destruct (findLoop x (findInside x) _ false 0
                           (updateNode ch parentId (appendChild newNode)));
          destruct (findLoop x (findInside x) ch false 0 ch);
          try discriminate V; [exact V | apply IH].
Qed.

(** C7. [handleAddChild] on the node [p] found for the parent id, ids
    being unique: the new node has hasLoaded = false and no children array
    and becomes the last child of [p] (after the children [p] had, none
    when it had no array), [p] gets isExpanded = true whatever it was, one
    id is added to the forest, right behind the subtree of [p], and every
    other node keeps its fields and the ids of its children. *)
Theorem add_child (nodes : list TreeNode) (newId parentId nm : string)
        (p : TreeNode) :
  NoDup (ids nodes) ->
  nodeAt nodes parentId = Some p ->
  let newNode := mkNode newId nm None None None (Some false) in
  let after := handleAddChild nodes newId parentId nm in
  nodeAt after parentId
  = Some (mkNode (id p) (name p) (Some (childrenOrEmpty p ++ [newNode]))
                 (Some true) (isLoading p) (hasLoaded p)) /\
  (exists pre post,
      ids nodes = pre ++ idsOf p ++ post /\
      ids after = pre ++ (idsOf p ++ [newId]) ++ post) /\
  nodeCount after = S (nodeCount nodes) /\
  (forall x, x <> parentId -> x <> newId ->
             option_map shallow (nodeAt after x)
             = option_map shallow (nodeAt nodes x)).
Proof.
  intros Hnd Hp newNode after. subst after. unfold handleAddChild.
  fold newNode. rewrite addChildNode_updateNode.
  assert (Hids : exists pre post,
             ids nodes = pre ++ idsOf p ++ post /\
             ids (updateNode nodes parentId (appendChild newNode))
             = pre ++ (idsOf p ++ [newId]) ++ post).
  { unfold nodeAt, findNode in Hp.
    destruct (findLoop parentId (findInside parentId) nodes true 0 nodes)
      as [f|] eqn:E; [|discriminate].
    injection Hp as <-.
    destruct (findLoop_updateNode_ids _ _ _ _ _ _ Hnd E) as (pre & post & E1 & E2).
    exists pre, post. split; [exact E1|].
    now rewrite E2, idsOf_appendChild. }
  repeat split.
  - now apply (nodeAt_updateNode parentId (appendChild newNode)).
  - exact Hids.
  - destruct Hids as (pre & post & E1 & E2). unfold nodeCount.
    rewrite E1, E2, !length_app. simpl. lia.
  - intros x Hx Hn. unfold nodeAt, findNode.
    pose proof (view_appendChild_other x parentId newNode nodes Hx) as V.
    unfold view in V.
    specialize (V ltac:(simpl; intuition congruence)
                  (updateNode nodes parentId (appendChild newNode)) true 0
                  nodes true 0).
    destruct (findLoop x (findInside x) _ true 0
                       (updateNode nodes parentId (appendChild newNode)));
      destruct (findLoop x (findInside x) nodes true 0 nodes);
      simpl in *; congruence.
Qed.

Lemma add_child_witness :
  let P := mkNode "p" "Docs" None (Some false) None None in
  nodeAt (handleAddChild [P] "k" "p" "X") "p"
  = Some (mkNode "p" "Docs" (Some [mkNode "k" "X" None None None (Some false)])
                 (Some true) None None).
Proof.
  intros P.
  assert (Hnd : NoDup (ids [P])).
  { simpl. repeat constructor. simpl. tauto. }
  exact (proj1 (add_child [P] "k" "p" "X" P Hnd eq_refl)).
Defined.

(** [handleDragEnd] never dereferences [undefined]: the array a node was
    found in is not empty. *)
Lemma findLoop_parent x nodes :
  forall w r k found,
    w <> [] -> findLoop x (findInside x) w r k nodes = Some found ->
    parent found <> [].
Proof.
  induction nodes as [|i nm e l h rest IH|i nm ch e l h rest IHch IH]
    using forest_ind; intros w r k found Hw; forest_rewrite.
  - discriminate.
  - destruct (i =? x); [|now apply IH].
    intros H. now injection H as <-.
  - destruct (i =? x).
    + intros H. now injection H as <-.
    + destruct (findLoop x (findInside x) ch false 0 ch) eqn:E; [|now apply IH].
      intros H. injection H as <-.
      destruct ch as [|c cs]; [discriminate|].
      eapply IHch; [|exact E]. discriminate.
Qed.

Lemma findNode_parent x nodes found :
  findNode nodes x = Some found -> exists head tl, parent found = head :: tl.
Proof.
  intros H. destruct nodes as [|n rest]; [discriminate|].
  apply findLoop_parent in H; [|discriminate].
  destruct (parent found) as [|head tl]; [congruence | eauto].
Qed.

(** The tree's [handleDragEnd] returns for every forest and every pair of
    ids: the two [parent[0]] it may read are elements of arrays in which
    [findNode] has just found a node. *)
Lemma handleDragEnd_returns nodes a over :
  exists after, handleDragEnd nodes a over = Returned after.
Proof.
  unfold handleDragEnd. destruct over as [o|]; [|eauto].
  destruct (a =? o); [eauto|].
  destruct (findNode nodes a) as [fa|] eqn:Ea; [|eauto].
  destruct (findNode nodes o) as [fo|] eqn:Eo; [|eauto].
  destruct (_ && _); [eauto|].
  destruct (findNode_parent _ _ _ Ea) as (ha & ta & Ha).
  destruct (findNode_parent _ _ _ Eo) as (ho & to & Ho).
  rewrite Ha, Ho. unfold canHaveChildren.
  destruct (parentIsRoot fa), (children (node fo)); simpl; eauto.
Qed.

(** ** What the handlers do to the ids of a forest *)

Lemma findNode_some_in x nodes :
  In x (ids nodes) -> exists found, findNode nodes x = Some found.
Proof.
  intros H. destruct (findNode nodes x) as [f|] eqn:E; [eauto|].
  apply findNode_none in E. contradiction.
Qed.

(** An updater that keeps the ids below a node keeps the ids of the
    forest: [handleToggle], [handleEdit] and the loading flag. *)
Lemma ids_updateNode_same x u nodes :
  (forall m, idsOf (u m) = idsOf m) -> ids (updateNode nodes x u) = ids nodes.
Proof.
  intros Hu.
  induction nodes as [|i nm e l h rest IH|i nm ch e l h rest IHch IH]
    using forest_ind; [reflexivity| |].
  - rewrite updateNode_leaf, ids_cons, IH.
    destruct (i =? x); [now rewrite Hu | reflexivity].
  - rewrite updateNode_branch, ids_cons, IH.
    destruct (i =? x); [now rewrite Hu|].
    rewrite <- ids_cons, !ids_branch, IHch. reflexivity.
Qed.

(** With unique ids, [deleteNode] removes the ids of one subtree. *)
Lemma findLoop_deleteNode_ids x nodes :
  forall w r k found,
    NoDup (ids nodes) ->
    findLoop x (findInside x) w r k nodes = Some found ->
    exists pre post,
      ids nodes = pre ++ idsOf (node found) ++ post /\
      ids (deleteNode nodes x) = pre ++ post.
Proof.
  induction nodes as [|i nm e l h rest IH|i nm ch e l h rest IHch IH]
    using forest_ind; intros w r k found Hnd.
  - discriminate.
  - rewrite findLoop_leaf, deleteNode_leaf. rewrite ids_leaf in Hnd.
    inversion Hnd as [|? ? Hi Hnd']; subst.
    destruct (String.eqb_spec i x) as [->|Hne].
    + intros H. injection H as <-. exists [], (ids rest).
      split; [reflexivity|]. now rewrite (deleteNode_missing x rest Hi).
    + intros H. destruct (IH _ _ _ _ Hnd' H) as (pre & post & E1 & E2).
      exists (i :: pre), post. rewrite !ids_leaf, E1, E2. split; reflexivity.
  - rewrite findLoop_branch, deleteNode_branch. rewrite ids_branch in Hnd.
    inversion Hnd as [|? ? Hi Hnd']; subst.
    destruct (NoDup_app_inv _ _ Hnd') as (Hch & Hrest & Hdisj).
    rewrite in_app_iff in Hi.
    destruct (String.eqb_spec i x) as [->|Hne].
    + intros H. injection H as <-. exists [], (ids rest).
      split; [reflexivity|]. rewrite deleteNode_missing; [reflexivity | tauto].
    + destruct (findLoop x (findInside x) ch false 0 ch) as [f|] eqn:E.
      * intros H. injection H as <-.
        destruct (IHch _ _ _ _ Hch E) as (pre & post & E1 & E2).
        exists (i :: pre), (post ++ ids rest). rewrite !ids_branch, E1, E2.
        assert (Hx : In x (ids ch)).
        { destruct (in_dec string_dec x (ids ch)) as [|Hn]; [assumption|].
          apply (findLoop_none x ch ch false 0) in Hn. congruence. }
        rewrite (deleteNode_missing x rest) by (now apply Hdisj).
        split; simpl; now rewrite <- !app_assoc.
      * intros H. destruct (IH _ _ _ _ Hrest H) as (pre & post & E1 & E2).
        apply findLoop_none in E.
        exists (i :: ids ch ++ pre), post.
        rewrite !ids_branch, E1, E2, (deleteNode_missing x ch E).
        split; simpl; now rewrite <- !app_assoc.
Qed.

(** [handleDelete] takes away as many nodes as the subtree of the deleted
    node has. *)
Lemma delete_node_count nodes x n :
  NoDup (ids nodes) -> nodeAt nodes x = Some n ->
  nodeCount (handleDelete nodes x) + length (idsOf n) = nodeCount nodes.
Proof.
  unfold nodeAt, findNode, handleDelete, nodeCount. intros Hnd H.
  destruct (findLoop x (findInside x) nodes true 0 nodes) as [f|] eqn:E;
    [|discriminate].
  injection H as <-.
  destruct (findLoop_deleteNode_ids _ _ _ _ _ _ Hnd E) as (pre & post & E1 & E2).
  rewrite E1, E2, !length_app. lia.
Qed.

Lemma NoDup_drop_middle {A} (pre mid post : list A) :
  NoDup (pre ++ mid ++ post) -> NoDup (pre ++ post).
Proof.
  intros H. destruct (NoDup_app_inv _ _ H) as (H1 & H2 & H3).
  destruct (NoDup_app_inv _ _ H2) as (_ & H4 & _).
  apply NoDup_app; auto. intros a Ha Hp. apply (H3 a Ha).
  apply in_or_app. now right.
Qed.

Lemma NoDup_swap_middle {A} (pre mid mid' post : list A) :
  NoDup (pre ++ mid ++ post) -> NoDup mid' ->
  (forall a, In a mid' -> In a mid \/ ~ In a (pre ++ mid ++ post)) ->
  NoDup (pre ++ mid' ++ post).
Proof.
  intros H Hm Hnew.
  destruct (NoDup_app_inv _ _ H) as (H1 & H2 & H3).
  destruct (NoDup_app_inv _ _ H2) as (_ & H4 & H5).
  apply NoDup_app; [assumption | apply NoDup_app; auto |].
  - intros a Ha Hp. destruct (Hnew a Ha) as [Hmid|Hout].
    + now apply (H5 a).
    + apply Hout. apply in_or_app. right. apply in_or_app. now right.
  - intros a Ha Hin. apply in_app_or in Hin. destruct Hin as [Hin|Hin].
    + destruct (Hnew a Hin) as [Hmid|Hout].
      * apply (H3 a Ha). apply in_or_app. now left.
      * apply Hout. apply in_or_app. now left.
    + apply (H3 a Ha). apply in_or_app. now right.
Qed.

Lemma delete_unique nodes x :
  NoDup (ids nodes) -> NoDup (ids (handleDelete nodes x)).
Proof.
  intros Hnd. unfold handleDelete.
  destruct (findNode nodes x) as [f|] eqn:E.
  - destruct (findLoop_deleteNode_ids _ _ _ _ _ _ Hnd E) as (pre & post & E1 & E2).
    rewrite E2. rewrite E1 in Hnd. now apply NoDup_drop_middle in Hnd.
  - apply findNode_none in E. now rewrite deleteNode_missing.
Qed.

(** With unique ids, [updateNode] keeps them unique when the updater puts
    a duplicate-free list of the node's own or of unused ids in place of
    the ids of the subtree it is given. *)
Lemma updateNode_unique nodes x u :
  NoDup (ids nodes) ->
  (forall found, findNode nodes x = Some found ->
     NoDup (idsOf (u (node found))) /\
     forall a, In a (idsOf (u (node found))) ->
               In a (idsOf (node found)) \/ ~ In a (ids nodes)) ->
  NoDup (ids (updateNode nodes x u)).
Proof.
  intros Hnd Hu. destruct (findNode nodes x) as [f|] eqn:E.
  - destruct (findLoop_updateNode_ids _ _ _ _ _ _ Hnd E) as (pre & post & E1 & E2).
    rewrite E2. destruct (Hu f eq_refl) as [H1 H2].
    rewrite E1 in Hnd. apply (NoDup_swap_middle _ _ _ _ Hnd H1).
    intros a Ha. rewrite <- E1. now apply H2.
  - apply findNode_none in E. now rewrite updateNode_missing.
Qed.

(** ** Dragging a root *)

Lemma findLoop_inner_flag x nodes :
  forall w k found,
    findLoop x (findInside x) w false k nodes = Some found ->
    parentIsRoot found = false.
Proof.
  induction nodes as [|i nm e l h rest IH|i nm ch e l h rest IHch IH]
    using forest_ind; intros w k found; forest_rewrite.
  - discriminate.
  - destruct (i =? x); [|apply IH]. intros H. now injection H as <-.
  - destruct (i =? x).
    + intros H. now injection H as <-.
    + destruct (findLoop x (findInside x) ch false 0 ch) eqn:E; [|apply IH].
      intros H. injection H as <-. eapply IHch; eauto.
Qed.

Lemma findInside_flag x n found :
  findInside x n = Some found -> parentIsRoot found = false.
Proof.
  destruct n as [i nm [ch|] e l h]; simpl; [|discriminate].
  apply findLoop_inner_flag.
Qed.

Lemma findLoop_root x w nodes :
  forall k found,
    findLoop x (findInside x) w true k nodes = Some found ->
    parentIsRoot found = true ->
    exists l1 l2,
      nodes = l1 ++ node found :: l2 /\ index found = k + length l1.
Proof.
  induction nodes as [|n rest IH]; intros k found; [discriminate|].
  rewrite findLoop_cons. destruct (id n =? x).
  - intros H _. injection H as <-. exists [], rest. simpl.
    split; [reflexivity | lia].
  - destruct (findInside x n) as [f|] eqn:E.
    + intros H Hr. injection H as <-. apply findInside_flag in E. congruence.
    + intros H Hr. destruct (IH _ _ H Hr) as (l1 & l2 & -> & Hi).
      exists (n :: l1), l2. simpl. split; [reflexivity | lia].
Qed.

Lemma filteri_from_all {A} (p : A -> nat -> bool) (l : list A) :
  forall j, (forall i x, j <= i -> p x i = true) -> filteri_from j p l = l.
Proof.
  induction l as [|a l IH]; intros j H; simpl; [reflexivity|].
  rewrite H by lia. f_equal. apply IH. intros i x Hi. apply H. lia.
Qed.

Lemma filteri_remove {A} (l1 : list A) (n : A) (l2 : list A) :
  forall k t,
    t = k + length l1 ->
    filteri_from k (fun _ i => negb (i =? t)%nat) (l1 ++ n :: l2) = l1 ++ l2.
Proof.
  induction l1 as [|a l1 IH]; intros k t Ht; simpl in *.
  - replace (k =? t)%nat with true by (symmetry; apply Nat.eqb_eq; lia).
    simpl. apply filteri_from_all. intros i _ Hi.
    apply negb_true_iff, Nat.eqb_neq. lia.
  - replace (k =? t)%nat with false by (symmetry; apply Nat.eqb_neq; lia).
    simpl. f_equal. apply IH. lia.
Qed.

Lemma perm_move {A} (X Y Z : list A) :
  Permutation (X ++ Y ++ Z) (Y ++ X ++ Z).
Proof. rewrite !app_assoc. apply Permutation_app_tail, Permutation_app_comm. Qed.

(** When the dragged node is a root, [handleDragEnd] detaches it and hangs
    it under the target: the ids of the forest are rearranged. *)
Lemma drag_root_permutes nodes a over fa :
  NoDup (ids nodes) ->
  findNode nodes a = Some fa -> parentIsRoot fa = true ->
  exists after,
    handleDragEnd nodes a over = Returned after /\
    Permutation (ids after) (ids nodes).
Proof.
  intros Hnd Hfa Hroot. unfold handleDragEnd.
  destruct over as [o|]; [|eexists; split; reflexivity].
  destruct (String.eqb_spec a o) as [|Hne]; [eexists; split; reflexivity|].
  rewrite Hfa.
  destruct (findNode nodes o) as [fo|] eqn:Hfo; [|eexists; split; reflexivity].
  destruct (_ && _) eqn:G; [eexists; split; reflexivity|].
  rewrite Hroot. cbv zeta. unfold bind at 1.
  assert (Hcan : canHaveChildren (node fo) = true)
    by (unfold canHaveChildren; now destruct (children (node fo))).
  rewrite Hcan. eexists. split; [reflexivity|].
  pose proof (findLoop_id _ _ _ _ _ _ Hfa) as Hida.
  destruct (findLoop_root _ _ _ _ _ Hfa Hroot) as (l1 & l2 & Hsplit & Hidx).
  simpl in Hidx.
  assert (Hupd : filteri (fun _ i => negb (i =? index fa)%nat) nodes = l1 ++ l2).
  { unfold filteri. rewrite Hsplit at 1. now apply filteri_remove. }
  rewrite Hupd.
  assert (Hids : ids nodes = ids l1 ++ idsOf (node fa) ++ ids l2)
    by (rewrite Hsplit at 1; now rewrite ids_app, ids_cons).
  assert (Ho : In o (ids (l1 ++ l2))).
  { assert (Hin : In o (ids nodes)).
    { destruct (in_dec string_dec o (ids nodes)) as [|Hn]; [assumption|].
      apply findNode_none in Hn. congruence. }
    assert (Hout : ~ In o (idsOf (node fa))).
    { intros Hd. apply andb_false_iff in G.
      destruct (node fa) as [i nm [ch|] e l h] eqn:En.
      - destruct G as [G|G]; [discriminate|].
        apply isDescendant_spec in Hd. congruence.
      - simpl in Hd, Hida. destruct Hd as [Hd|[]]. congruence. }
    rewrite Hids in Hin. rewrite ids_app.
    rewrite !in_app_iff in *. tauto. }
  assert (Hnd' : NoDup (ids (l1 ++ l2))).
  { rewrite ids_app. rewrite Hids in Hnd. now apply NoDup_drop_middle in Hnd. }
  destruct (findNode_some_in _ _ Ho) as (fo' & Hfo').
  destruct (findLoop_updateNode_ids _ _ _ _ _ _ Hnd' Hfo')
    as (pre & post & E1 & E2).
  fold (appendChild (node fa)).
  rewrite (E2 (appendChild (node fa))), idsOf_appendChild, Hids.
  rewrite <- app_assoc.
  transitivity (idsOf (node fa) ++ ids (l1 ++ l2)).
  - rewrite E1, (app_assoc pre), (app_assoc pre (idsOf (node fo')) post).
    apply perm_move.
  - rewrite ids_app. apply perm_move.
Qed.

(** ** The uniqueness invariant over runs without nested drags *)

Lemma idsOf_field_update (m m' : TreeNode) :
  id m' = id m -> children m' = children m -> idsOf m' = idsOf m.
Proof.
  destruct m as [i nm c e l h], m' as [i' nm' c' e' l' h']. simpl.
  now intros -> ->.
Qed.

Lemma node_step_unique nodes a :
  NoDup (ids nodes) -> mintsFresh nodes a -> dragsRoot nodes a ->
  exists next, step nodes a = Returned next /\ NoDup (ids next).
Proof.
  intros Hnd Hfresh Hroot.
  destruct a as [x|newId parentId nm|x nm|x|x|x fetched|x|x over]; simpl in *.
  - eexists. split; [reflexivity|]. unfold handleToggle.
    rewrite ids_updateNode_same; [assumption|].
    intros m. now apply idsOf_field_update.
  - eexists. split; [reflexivity|]. unfold handleAddChild.
    rewrite addChildNode_updateNode.
    destruct (findNode nodes parentId) as [f|] eqn:E.
    + destruct (findLoop_updateNode_ids _ _ _ _ _ _ Hnd E)
        as (pre & post & E1 & E2).
      rewrite E2, idsOf_appendChild. simpl idsOf.
      apply (Permutation_NoDup (l := newId :: ids nodes)).
      * rewrite E1.
        replace (pre ++ (idsOf (node f) ++ [newId]) ++ post)
          with ((pre ++ idsOf (node f)) ++ newId :: post)
          by (now rewrite <- !app_assoc).
        rewrite (app_assoc pre (idsOf (node f)) post).
        apply Permutation_middle.
      * now constructor.
    + apply findNode_none in E. now rewrite updateNode_missing.
  - eexists. split; [reflexivity|]. unfold handleEdit.
    rewrite ids_updateNode_same; [assumption|].
    intros m. now apply idsOf_field_update.
  - eexists. split; [reflexivity|]. now apply delete_unique.
  - eexists. split; [reflexivity|]. unfold loadStarted.
    rewrite ids_updateNode_same; [assumption|].
    intros m. now apply idsOf_field_update.
  - eexists. split; [reflexivity|]. unfold loadResolved.
    destruct Hfresh as [Hf1 Hf2].
    apply updateNode_unique; [assumption|].
    intros found Hfound.
    pose proof (findLoop_id _ _ _ _ _ _ Hfound) as Hid.
    assert (Hx : In x (ids nodes)).
    { destruct (in_dec string_dec x (ids nodes)) as [|Hn]; [assumption|].
      apply findNode_none in Hn. congruence. }
    cbv beta.
    match goal with
    | |- NoDup (idsOf ?t) /\ _ =>
        change (idsOf t) with (id (node found) :: ids fetched)
    end.
    split.
    + constructor; [|assumption]. rewrite Hid. intros Hin.
      now apply (Hf2 x).
    + intros y [<-|Hy].
      * left. destruct (idsOf_head (node found)) as (tl & ->). now left.
      * right. now apply Hf2.
  - eexists. split; [reflexivity|]. unfold loadRejected.
    rewrite ids_updateNode_same; [assumption|].
    intros m. now apply idsOf_field_update.
  - destruct (findNode nodes x) as [f|] eqn:E.
    + destruct (drag_root_permutes nodes x over f Hnd E (Hroot f eq_refl))
        as (after & -> & Hp).
      exists after. split; [reflexivity|].
      apply (Permutation_NoDup (l := ids nodes)); [now symmetry | assumption].
    + apply findNode_none in E. exists nodes.
      split; [now apply dragNode_missing_active | assumption].
Qed.

(** Every forest reached from one with unique ids, by any sequence of
    toggles, adds, renames, deletes, load steps and drags of roots in
    which new nodes get ids that no node has, has unique ids. *)
Lemma node_run_unique actions :
  forall nodes,
    NoDup (ids nodes) -> allFreshRootDrags nodes actions ->
    exists final, run nodes actions = Returned final /\ NoDup (ids final).
Proof.
  induction actions as [|a rest IH]; simpl; intros nodes Hnd Hadm.
  - eauto.
  - destruct Hadm as (Hf & Hr & Hnext).
    destruct (node_step_unique nodes a Hnd Hf Hr) as (next & Hs & Hn).
    rewrite Hs. simpl. apply IH; [assumption | now apply Hnext].
Qed.

(** C2 at a nested source. Dragging Y, the second child of P, onto the
    root Q: the removal step updates the node whose id is that of
    [activeParent[0]], the sibling X, instead of the parent P, so Y stays
    under P while a second Y is appended under Q.  Four nodes become
    five. *)
Theorem move_nested_node_count :
  NoDup (ids sampleForest) /\
  nodeCount sampleForest = 4 /\
  exists after,
    handleDragEnd sampleForest "Y" (Some "Q") = Returned after /\
    after =
    [ mkNode "P" "Documents"
             (Some [ mkNode "X" "Work" (Some []) None None None;
                     mkNode "Y" "Personal" None None None None ])
             (Some true) None None;
      mkNode "Q" "Projects"
             (Some [ mkNode "Y" "Personal" None None None None ])
             (Some true) None None ] /\
    nodeCount after = 5.
Proof.
  split; [|split; [reflexivity|]].
  - simpl. repeat constructor; simpl; intuition discriminate.
  - eexists. split; [reflexivity|]. split; reflexivity.
Qed.

(** C1 at the same input: the forest that [handleDragEnd] returns holds
    the id Y twice. *)
Theorem move_nested_node_duplicates :
  NoDup (ids sampleForest) /\
  exists after,
    handleDragEnd sampleForest "Y" (Some "Q") = Returned after /\
    ids after = ["P"; "X"; "Y"; "Q"; "Y"] /\
    ~ NoDup (ids after).
Proof.
  split.
  - simpl. repeat constructor; simpl; intuition discriminate.
  - eexists. split; [reflexivity|]. split; [reflexivity|].
    intros H. simpl in H.
    inversion H as [|? ? _ H1]; subst. inversion H1 as [|? ? _ H2]; subst.
    inversion H2 as [|? ? Hy _]; subst. apply Hy. simpl. auto.
Qed.

(** A nested drag can also lose nodes: dragging Y, at index 1 below P,
    onto V, at index 1 below Y's first sibling X, removes V and moves
    nothing. *)
Lemma move_nested_node_drops_target :
  let nodes :=
    [ mkNode "P" "Documents"
             (Some [ mkNode "X" "Work"
                            (Some [ mkNode "U" "a" None None None None;
                                    mkNode "V" "b" None None None None ])
                            None None None;
                     mkNode "Y" "Personal" None None None None ])
             None None None ] in
  exists after,
    handleDragEnd nodes "Y" (Some "V") = Returned after /\
    ids nodes = ["P"; "X"; "U"; "V"; "Y"] /\
    ids after = ["P"; "X"; "U"; "Y"].
Proof. eexists. repeat split. Qed.

Lemma drag_root_count nodes a over fa :
  NoDup (ids nodes) ->
  findNode nodes a = Some fa -> parentIsRoot fa = true ->
  exists after,
    handleDragEnd nodes a over = Returned after /\
    nodeCount after = nodeCount nodes.
Proof.
  intros Hnd Hfa Hroot.
  destruct (drag_root_permutes nodes a over fa Hnd Hfa Hroot) as (after & H & Hp).
  exists after. split; [assumption|]. now apply Permutation_length.
Qed.

(** ** What [findNode] returns *)

Lemma findLoop_sound x l :
  forall w r k f pre,
    w = pre ++ l -> length pre = k ->
    findLoop x (findInside x) w r k l = Some f ->
    nth_error (parent f) (index f) = Some (node f) /\
    inForest (node f) l /\
    ((parentIsRoot f = r /\ parent f = w) \/
     (parentIsRoot f = false /\
      exists p, inForest p l /\ children p = Some (parent f))).
Proof.
  induction l as [|i nm e lo h rest IH|i nm ch e lo h rest IHch IH]
    using forest_ind; intros w r k f pre Hw Hk.
  - discriminate.
  - rewrite findLoop_leaf. destruct (i =? x).
    + intros H. injection H as <-. simpl. subst w k.
      rewrite nth_error_app2, Nat.sub_diag by lia.
      repeat split; [constructor | now left].
    + intros H.
      destruct (IH w r (S k) f (pre ++ [mkNode i nm None e lo h])) as (H1 & H2 & H3);
        [now rewrite <- app_assoc | rewrite length_app; simpl; lia | exact H |].
      repeat split; [exact H1 | now apply inForest_later |].
      destruct H3 as [H3|(Hf & p & Hp & Hc)]; [now left|].
      right. split; [exact Hf|]. exists p. split; [now apply inForest_later | exact Hc].
  - rewrite findLoop_branch. destruct (i =? x).
    + intros H. injection H as <-. simpl. subst w k.
      rewrite nth_error_app2, Nat.sub_diag by lia.
      repeat split; [constructor | now left].
    + destruct (findLoop x (findInside x) ch false 0 ch) as [g|] eqn:E.
      * intros H. injection H as <-.
        destruct (IHch ch false 0 g [] eq_refl eq_refl E) as (H1 & H2 & H3).
        repeat split; [exact H1 | now apply inForest_below with (ch := ch) |].
        right. destruct H3 as [[Hf Hp]|(Hf & p & Hp & Hc)].
        -- split; [exact Hf|]. exists (mkNode i nm (Some ch) e lo h).
           split; [constructor | now rewrite Hp].
        -- split; [exact Hf|]. exists p.
           split; [now apply inForest_below with (ch := ch) | exact Hc].
      * intros H.
        destruct (IH w r (S k) f (pre ++ [mkNode i nm (Some ch) e lo h]))
          as (H1 & H2 & H3);
          [now rewrite <- app_assoc | rewrite length_app; simpl; lia | exact H |].
        repeat split; [exact H1 | now apply inForest_later |].
        destruct H3 as [H3|(Hf & p & Hp & Hc)]; [now left|].
        right. split; [exact Hf|]. exists p.
        split; [now apply inForest_later | exact Hc].
Qed.

(** What [findNode] returns is consistent: the node has the id asked for
    and is a node of the forest, [parent[index]] is that node, and
    [parent] is the array of the roots when the node is a root and the
    children array of a node of the forest otherwise. *)
Theorem findNode_sound (nodes : list TreeNode) (x : string) (f : Found) :
  findNode nodes x = Some f ->
  id (node f) = x /\
  nth_error (parent f) (index f) = Some (node f) /\
  inForest (node f) nodes /\
  (parentIsRoot f = true -> parent f = nodes) /\
  (parentIsRoot f = false ->
   exists p, inForest p nodes /\ children p = Some (parent f)).
Proof.
  intros H. pose proof (findLoop_id _ _ _ _ _ _ H) as Hid.
  destruct (findLoop_sound x nodes nodes true 0 f [] eq_refl eq_refl H)
    as (H1 & H2 & H3).
  repeat split; try assumption.
  - intros Hr. destruct H3 as [[_ Hp]|[Hf _]]; [exact Hp | congruence].
  - intros Hr. destruct H3 as [[Hf _]|[_ Hp]]; [congruence | exact Hp].
Qed.

Lemma findNode_sound_witness :
  let Y := mkNode "Y" "Personal" None None None None in
  exists f,
    findNode sampleForest "Y" = Some f /\
    nth_error (parent f) (index f) = Some Y /\ index f = 1.
Proof.
  intros Y. eexists. split; [reflexivity|].
  split; [|reflexivity].
  exact (proj1 (proj2 (findNode_sound sampleForest "Y" _ eq_refl))).
Defined.

(** [isDescendant nodeId ancestor] holds exactly when a node with that id
    is [ancestor] itself or lies anywhere below it. *)
Theorem isDescendant_iff_in_subtree (nodeId : string) (ancestor : TreeNode) :
  isDescendant nodeId ancestor = true <->
  exists n, inForest n [ancestor] /\ id n = nodeId.
Proof.
  rewrite isDescendant_spec.
  assert (E : idsOf ancestor = ids [ancestor])
    by (unfold ids; simpl; now rewrite app_nil_r).
  rewrite E. split.
  - apply ids_inForest.
  - intros (n & Hn & <-). now apply inForest_ids.
Qed.

(** ** Updates of one id compose *)

Lemma updateOne_hit x u n : id n = x -> updateOne x u n = u n.
Proof.
  intros <-. destruct n as [i nm [ch|] e l h]; simpl;
    now rewrite String.eqb_refl.
Qed.

Lemma updateNode_cons x u n rest :
  updateNode (n :: rest) x u = updateOne x u n :: updateNode rest x u.
Proof. reflexivity. Qed.

Lemma updateNode_twice (nodes : list TreeNode) (x : string)
      (u v : TreeNode -> TreeNode) :
  (forall m, id (u m) = id m) ->
  updateNode (updateNode nodes x u) x v
  = updateNode nodes x (fun m => v (u m)).
Proof.
  intros Hu.
  induction nodes as [|i nm e l h rest IH|i nm ch e l h rest IHch IH]
    using forest_ind; [reflexivity| |].
  - rewrite !updateNode_leaf, updateNode_cons, IH. f_equal.
    destruct (String.eqb_spec i x) as [Hi|Hi].
    + apply updateOne_hit. now rewrite Hu.
    + simpl. apply String.eqb_neq in Hi. now rewrite Hi.
  - rewrite !updateNode_branch, updateNode_cons, IH. f_equal.
    destruct (String.eqb_spec i x) as [Hi|Hi].
    + apply updateOne_hit. now rewrite Hu.
    + simpl. apply String.eqb_neq in Hi. rewrite Hi.
      fold (updateNode ch x u).
      fold (updateNode (updateNode ch x u) x v). now rewrite IHch.
Qed.

(** Two [updateNode] calls on one id are one call with the updaters
    composed, when the first updater keeps the id: the second of two
    renames wins, and so on. *)
Theorem updateNode_compose (nodes : list TreeNode) (x : string)
        (u v : TreeNode -> TreeNode) :
  (forall m, id (u m) = id m) ->
  updateNode (updateNode nodes x u) x v
  = updateNode nodes x (fun m => v (u m)).
Proof. apply updateNode_twice. Qed.

Lemma updateNode_compose_witness :
  handleEdit (handleEdit sampleForest "X" "first") "X" "second"
  = handleEdit sampleForest "X" "second".
Proof.
  unfold handleEdit.
  rewrite (updateNode_compose sampleForest "X"
             (fun node => with_name node "first")
             (fun node => with_name node "second") (fun m => eq_refl)).
  reflexivity.
Defined.

(** ** The ids handed to the sortable context *)

Lemma collectIds_cons n rest acc :
  collectIds (n :: rest) acc = collectIds rest (collectInto n acc).
Proof. reflexivity. Qed.

Lemma collectIds_spec nodes :
  forall acc, collectIds nodes acc = acc ++ flat_map sortableIds nodes.
Proof.
  induction nodes as [|i nm e l h rest IH|i nm ch e l h rest IHch IH]
    using forest_ind; intros acc.
  - simpl. now rewrite app_nil_r.
  - rewrite collectIds_cons, IH. simpl. now rewrite <- app_assoc.
  - rewrite collectIds_cons, IH. simpl.
    fold (collectIds ch (acc ++ [i])).
    destruct (truthy e); simpl.
    + rewrite IHch. destruct ch; simpl; now rewrite <- !app_assoc.
    + now rewrite <- app_assoc.
Qed.

Lemma visible_leaf i nm e l h rest :
  flat_map sortableIds (mkNode i nm None e l h :: rest)
  = i :: flat_map sortableIds rest.
Proof. reflexivity. Qed.

Lemma visible_branch i nm ch e l h rest :
  flat_map sortableIds (mkNode i nm (Some ch) e l h :: rest)
  = i :: (if truthy e then flat_map sortableIds ch else [])
      ++ flat_map sortableIds rest.
Proof. simpl. destruct (truthy e); [|reflexivity]. now destruct ch. Qed.

Lemma sortableIds_branch i nm ch e l h :
  sortableIds (mkNode i nm (Some ch) e l h)
  = i :: (if truthy e then flat_map sortableIds ch else []).
Proof. simpl. destruct (truthy e); [|reflexivity]. now destruct ch. Qed.

Lemma visible_in_ids nodes :
  incl (flat_map sortableIds nodes) (ids nodes).
Proof.
  induction nodes as [|i nm e l h rest IH|i nm ch e l h rest IHch IH]
    using forest_ind; intros x.
  - intros [].
  - rewrite visible_leaf, ids_leaf. intros [<-|H]; [now left|].
    right. now apply IH.
  - rewrite visible_branch, ids_branch. intros [<-|H]; [now left|].
    right. apply in_app_or in H. apply in_or_app. destruct H as [H|H].
    + left. destruct (truthy e); [now apply IHch | contradiction].
    + right. now apply IH.
Qed.

Lemma visible_nodup nodes :
  NoDup (ids nodes) -> NoDup (flat_map sortableIds nodes).
Proof.
  induction nodes as [|i nm e l h rest IH|i nm ch e l h rest IHch IH]
    using forest_ind.
  - intros _. constructor.
  - rewrite visible_leaf, ids_leaf. intros H.
    inversion H as [|? ? Hi Hnd]; subst. constructor; [|now apply IH].
    intros Hin. apply Hi. now apply visible_in_ids.
  - rewrite visible_branch, ids_branch. intros H.
    inversion H as [|? ? Hi Hnd]; subst.
    destruct (NoDup_app_inv _ _ Hnd) as (Hch & Hrest & Hdisj).
    assert (Hsub : incl (if truthy e then flat_map sortableIds ch else [])
                        (ids ch)).
    { destruct (truthy e); [apply visible_in_ids | intros x []]. }
    constructor.
    + intros Hin. apply Hi. apply in_app_or in Hin. apply in_or_app.
      destruct Hin as [Hin|Hin]; [left; now apply Hsub|].
      right. now apply visible_in_ids.
    + apply NoDup_app.
      * destruct (truthy e); [now apply IHch | constructor].
      * now apply IH.
      * intros a Ha Hr. apply (Hdisj a); [now apply Hsub|].
        now apply visible_in_ids.
Qed.

Lemma roots_visible nodes : incl (map id nodes) (flat_map sortableIds nodes).
Proof.
  induction nodes as [|n rest IH]; intros x; simpl; [tauto|].
  intros [<-|H].
  - apply in_or_app. left. destruct n as [i nm [ch|] e l h]; now left.
  - apply in_or_app. right. now apply IH.
Qed.

(** [getFlatNodeIds] of the tree view gives the sortable context the ids
    of the [TreeNode] components that are rendered, in the order they are
    rendered: both walk into the children of the nodes that are expanded. *)
Theorem getFlatNodeIds_are_rendered_ids (nodes : list TreeNode) :
  getFlatNodeIds nodes = flat_map sortableIds nodes.
Proof. unfold getFlatNodeIds. now rewrite collectIds_spec. Qed.

(** With unique node ids, [getFlatNodeIds] lists no id twice; it lists
    ids of the forest only, and the id of every root. *)
Theorem getFlatNodeIds_unique (nodes : list TreeNode) :
  NoDup (ids nodes) ->
  NoDup (getFlatNodeIds nodes) /\
  incl (getFlatNodeIds nodes) (ids nodes) /\
  incl (map id nodes) (getFlatNodeIds nodes).
Proof.
  intros H. unfold getFlatNodeIds. rewrite collectIds_spec. simpl.
  repeat split;
    [now apply visible_nodup | apply visible_in_ids | apply roots_visible].
Qed.

Lemma sample_forest_unique : NoDup (ids sampleForest).
Proof. simpl. repeat constructor; simpl; intuition discriminate. Qed.

Lemma getFlatNodeIds_unique_witness :
  NoDup (getFlatNodeIds sampleForest) /\
  getFlatNodeIds sampleForest = ["P"; "X"; "Y"; "Q"].
Proof.
  split; [|reflexivity].
  exact (proj1 (getFlatNodeIds_unique sampleForest sample_forest_unique)).
Defined.

Lemma sortableIds_ext (m m' : TreeNode) :
  id m' = id m -> children m' = children m ->
  truthy (isExpanded m') = truthy (isExpanded m) ->
  sortableIds m' = sortableIds m.
Proof.
  destruct m as [i nm c e l h], m' as [i' nm' c' e' l' h']. simpl.
  intros -> -> H. now rewrite H.
Qed.

Lemma visible_cons n rest :
  flat_map sortableIds (n :: rest)
  = sortableIds n ++ flat_map sortableIds rest.
Proof. reflexivity. Qed.

(** An updater that keeps id, children and the truth of isExpanded keeps
    what is shown. *)
Lemma visible_updateNode x u nodes :
  (forall m, id (u m) = id m /\ children (u m) = children m /\
             truthy (isExpanded (u m)) = truthy (isExpanded m)) ->
  flat_map sortableIds (updateNode nodes x u) = flat_map sortableIds nodes.
Proof.
  intros Hu.
  induction nodes as [|i nm e l h rest IH|i nm ch e l h rest IHch IH]
    using forest_ind; [reflexivity| |].
  - rewrite updateNode_leaf, visible_cons, IH, visible_cons. f_equal.
    destruct (i =? x); [|reflexivity].
    destruct (Hu (mkNode i nm None e l h)) as (H1 & H2 & H3).
    now apply sortableIds_ext.
  - rewrite updateNode_branch, visible_cons, IH, visible_cons. f_equal.
    destruct (i =? x).
    + destruct (Hu (mkNode i nm (Some ch) e l h)) as (H1 & H2 & H3).
      now apply sortableIds_ext.
    + now rewrite !sortableIds_branch, IHch.
Qed.

(** Toggling a node twice shows the same nodes as before, and renaming a
    node changes nothing of what is shown. *)
Theorem toggle_twice_shows_the_same (nodes : list TreeNode) (x nm : string) :
  getFlatNodeIds (handleToggle (handleToggle nodes x) x) = getFlatNodeIds nodes /\
  getFlatNodeIds (handleEdit nodes x nm) = getFlatNodeIds nodes.
Proof.
  unfold getFlatNodeIds, handleToggle, handleEdit.
  rewrite !collectIds_spec. simpl. split.
  - rewrite updateNode_twice by reflexivity.
    apply visible_updateNode. intros m. repeat split.
    simpl. now destruct (isExpanded m) as [[|]|].
  - apply visible_updateNode. intros m. repeat split.
Qed.

(** When the parent is shown, the child that [handleAddChild] adds under
    it is shown too. *)
Theorem added_child_is_shown (nodes : list TreeNode)
        (newId parentId nm : string) :
  In parentId (getFlatNodeIds nodes) ->
  In newId (getFlatNodeIds (handleAddChild nodes newId parentId nm)).
Proof.
  unfold getFlatNodeIds, handleAddChild. rewrite !collectIds_spec. simpl.
  rewrite addChildNode_updateNode.
  set (newNode := mkNode newId nm None None None (Some false)).
  induction nodes as [|i nm' e l h rest IH|i nm' ch e l h rest IHch IH]
    using forest_ind.
  - intros [].
  - rewrite visible_leaf, updateNode_leaf, visible_cons. intros H.
    apply in_or_app. destruct (String.eqb_spec i parentId) as [->|Hi].
    + left. rewrite appendChild_leaf. simpl. auto.
    + right. apply IH. destruct H as [H|H]; [contradiction | exact H].
  - rewrite visible_branch, updateNode_branch, visible_cons. intros H.
    apply in_or_app. destruct (String.eqb_spec i parentId) as [->|Hi].
    + left. rewrite appendChild_branch, sortableIds_branch.
      right. simpl. rewrite flat_map_app. apply in_or_app. right. simpl. auto.
    + destruct H as [H|H]; [contradiction|].
      apply in_app_or in H. destruct H as [H|H]; [left | right; now apply IH].
      rewrite sortableIds_branch.
      right. destruct (truthy e); [now apply IHch | contradiction].
Qed.

Lemma added_child_is_shown_witness :
  In "k" (getFlatNodeIds (handleAddChild sampleForest "k" "Q" "New")).
Proof.
  apply added_child_is_shown. simpl. auto.
Defined.

(** ** Deleting *)

Lemma deleteNode_effect_all x nodes :
  ~ In x (ids (deleteNode nodes x)) /\
  incl (ids (deleteNode nodes x)) (ids nodes).
Proof.
  induction nodes as [|i nm e l h rest [IH1 IH2]
                      |i nm ch e l h rest [IHc1 IHc2] [IH1 IH2]]
    using forest_ind.
  - split; [intros [] | intros a []].
  - rewrite deleteNode_leaf, ids_leaf.
    destruct (String.eqb_spec i x) as [->|Hi].
    + split; [exact IH1|]. intros a Ha. right. now apply IH2.
    + rewrite ids_leaf. split.
      * intros [H|H]; [contradiction | now apply IH1].
      * intros a [<-|Ha]; [now left | right; now apply IH2].
  - rewrite deleteNode_branch, ids_branch.
    destruct (String.eqb_spec i x) as [->|Hi].
    + split; [exact IH1|]. intros a Ha. right. apply in_or_app. right.
      now apply IH2.
    + rewrite ids_branch. split.
      * intros [H|H]; [contradiction|]. apply in_app_or in H. tauto.
      * intros a [<-|Ha]; [now left|]. right.
        apply in_app_or in Ha. apply in_or_app.
        destruct Ha as [Ha|Ha]; [left; now apply IHc2 | right; now apply IH2].
Qed.

(** [handleDelete] leaves no node with the id at any depth, whether or not
    ids are unique, adds no id, and deleting the same id again changes
    nothing. *)
Theorem delete_node_effect (nodes : list TreeNode) (x : string) :
  ~ In x (ids (handleDelete nodes x)) /\
  incl (ids (handleDelete nodes x)) (ids nodes) /\
  handleDelete (handleDelete nodes x) x = handleDelete nodes x.
Proof.
  unfold handleDelete. destruct (deleteNode_effect_all x nodes) as [H1 H2].
  repeat split; [exact H1 | exact H2 | now apply deleteNode_missing].
Qed.

Lemma delete_node_count_witness :
  nodeCount (handleDelete sampleForest "P") + 3 = nodeCount sampleForest.
Proof.
  exact (delete_node_count sampleForest "P" _ sample_forest_unique eq_refl).
Defined.

Lemma node_run_unique_witness :
  exists final,
    run sampleForest [AddChild "k" "Q" "New"; Toggle "P"; DragEnd "Q" (Some "X");
                      Delete "Y"]
    = Returned final /\ NoDup (ids final).
Proof.
  apply node_run_unique; [exact sample_forest_unique|].
  simpl. split; [intuition discriminate|]. split; [exact I|].
  intros next H. injection H as <-.
  simpl. split; [exact I|]. split; [exact I|].
  intros next H. injection H as <-.
  simpl. split; [exact I|]. split.
  - intros found H. vm_compute in H. injection H as <-. reflexivity.
  - intros next H. vm_compute in H. injection H as <-.
    simpl. split; [exact I|]. split; [exact I|]. intros next _. exact I.
Defined.

(** ** Dragging a root onto a node outside its subtree *)

Lemma node_findLoop x l :
  forall w1 r1 k1 w2 r2 k2,
    option_map node (findLoop x (findInside x) w1 r1 k1 l)
    = option_map node (findLoop x (findInside x) w2 r2 k2 l).
Proof.
  induction l as [|n rest IH]; intros; [reflexivity|].
  rewrite !findLoop_cons. destruct (id n =? x); [reflexivity|].
  destruct (findInside x n); [reflexivity | apply IH].
Qed.

Lemma nodeAt_without x l1 a l2 :
  ~ In x (idsOf a) -> nodeAt (l1 ++ l2) x = nodeAt (l1 ++ a :: l2) x.
Proof.
  intros Hx. unfold nodeAt, findNode. rewrite !findLoop_app.
  pose proof (node_findLoop x l1 (l1 ++ l2) true 0 (l1 ++ a :: l2) true 0) as N.
  assert (Ha : (id a =? x) = false).
  { apply String.eqb_neq. intros Heq. apply Hx.
    destruct (idsOf_head a) as (tl & ->). now left. }
  destruct (findLoop x (findInside x) (l1 ++ l2) true 0 l1);
    destruct (findLoop x (findInside x) (l1 ++ a :: l2) true 0 l1);
    try discriminate N; [exact N|].
  rewrite (findLoop_cons x (l1 ++ a :: l2)), Ha, (findInside_none x a Hx).
  apply node_findLoop.
Qed.

Lemma drag_root_result nodes a o fa :
  findNode nodes a = Some fa -> parentIsRoot fa = true ->
  In o (ids nodes) -> ~ In o (idsOf (node fa)) ->
  exists l1 l2,
    nodes = l1 ++ node fa :: l2 /\
    handleDragEnd nodes a (Some o)
    = Returned (updateNode (l1 ++ l2) o (appendChild (node fa))).
Proof.
  intros Hfa Hroot Ho Hout.
  pose proof (findLoop_id _ _ _ _ _ _ Hfa) as Hida.
  destruct (findLoop_root _ _ _ _ _ Hfa Hroot) as (l1 & l2 & Hsplit & Hidx).
  simpl in Hidx. exists l1, l2. split; [exact Hsplit|].
  unfold handleDragEnd.
  destruct (String.eqb_spec a o) as [->|_].
  { exfalso. apply Hout. rewrite <- Hida.
    destruct (idsOf_head (node fa)) as (tl & ->). now left. }
  rewrite Hfa. destruct (findNode_some_in _ _ Ho) as (fo & ->).
  assert (G : isDescendant o (node fa) = false).
  { destruct (isDescendant o (node fa)) eqn:E; [|reflexivity].
    apply isDescendant_spec in E. contradiction. }
  rewrite G, andb_false_r, Hroot. cbv zeta. unfold bind at 1.
  assert (Hcan : canHaveChildren (node fo) = true)
    by (unfold canHaveChildren; now destruct (children (node fo))).
  rewrite Hcan. unfold filteri. rewrite Hsplit at 1.
  now rewrite (filteri_remove l1 (node fa) l2 0 (index fa) Hidx).
Qed.

(** The move of a root.  With unique ids, a root dragged onto a node
    outside its own subtree is taken out of the roots and becomes the last
    child of that node, which is expanded; the forest holds the same ids
    as before. *)
Theorem drag_root_moves (nodes : list TreeNode) (a o : string)
        (fa : Found) (b : TreeNode) :
  NoDup (ids nodes) ->
  findNode nodes a = Some fa -> parentIsRoot fa = true ->
  nodeAt nodes o = Some b ->
  ~ In o (idsOf (node fa)) ->
  exists after,
    handleDragEnd nodes a (Some o) = Returned after /\
    nodeAt after o
    = Some (mkNode (id b) (name b) (Some (childrenOrEmpty b ++ [node fa]))
                   (Some true) (isLoading b) (hasLoaded b)) /\
    ~ In a (map id after) /\
    Permutation (ids after) (ids nodes).
Proof.
  intros Hnd Hfa Hroot Hb Hout.
  assert (Ho : In o (ids nodes)).
  { destruct (in_dec string_dec o (ids nodes)) as [|Hn]; [assumption|].
    apply findNode_none in Hn. unfold nodeAt in Hb. rewrite Hn in Hb.
    discriminate. }
  destruct (drag_root_result nodes a o fa Hfa Hroot Ho Hout)
    as (l1 & l2 & Hsplit & Hres).
  pose proof (findLoop_id _ _ _ _ _ _ Hfa) as Hida.
  eexists. split; [exact Hres|]. split; [|split].
  - apply (nodeAt_updateNode o (appendChild (node fa))); [reflexivity|].
    rewrite (nodeAt_without o l1 (node fa) l2 Hout), <- Hsplit. exact Hb.
  - rewrite map_id_updateNode by reflexivity.
    intros Hin. rewrite Hsplit, ids_app, ids_cons in Hnd.
    apply NoDup_app_inv in Hnd. destruct Hnd as (_ & Hnd & Hdisj).
    destruct (idsOf_head (node fa)) as (tl & Htl). rewrite Htl, Hida in *.
    simpl in Hnd. inversion Hnd as [|? ? Hnot _]; subst.
    rewrite map_app in Hin. apply in_app_or in Hin. destruct Hin as [Hin|Hin].
    + apply (Hdisj (id (node fa))); [|now left].
      apply in_map_iff in Hin. destruct Hin as (r & Hr & Hin).
      rewrite <- Hr. apply inForest_ids.
      destruct (in_split _ _ Hin) as (p1 & p2 & ->).
      clear. induction p1 as [|q p1 IH]; simpl;
        [constructor | now apply inForest_later].
    + apply Hnot. apply in_or_app. right.
      apply in_map_iff in Hin. destruct Hin as (r & Hr & Hin).
      rewrite <- Hr. apply inForest_ids.
      destruct (in_split _ _ Hin) as (p1 & p2 & ->).
      clear. induction p1 as [|q p1 IH]; simpl;
        [constructor | now apply inForest_later].
  - destruct (drag_root_permutes nodes a (Some o) fa Hnd Hfa Hroot)
      as (after' & Hres' & Hp).
    rewrite Hres in Hres'. injection Hres' as <-. exact Hp.
Qed.

Lemma drag_root_moves_witness :
  exists after,
    handleDragEnd sampleForest "Q" (Some "X") = Returned after /\
    nodeAt after "X"
    = Some (mkNode "X" "Work" (Some [mkNode "Q" "Projects" None None None None])
                   (Some true) None None).
Proof.
  destruct (drag_root_moves sampleForest "Q" "X"
              (mkFound (mkNode "Q" "Projects" None None None None)
                       sampleForest 1 true)
              (mkNode "X" "Work" None None None None)
              sample_forest_unique eq_refl eq_refl eq_refl)
    as (after & H1 & H2 & _).
  - simpl. intuition discriminate.
  - exists after. split; [exact H1 | exact H2].
Defined.

(** ** The expand control of the node component *)

(** [handleToggle] of the [TreeNode] component never calls
    [onLoadChildren]: the call needs [node.children === undefined], which
    makes the node a leaf, and for a leaf the handler does nothing.  A
    node with a children array, empty or not, gets [onToggle] and nothing
    else, whatever [hasLoaded] says. *)
Theorem component_toggle_never_loads (n : TreeNode) (x : string) :
  ~ In (OnLoadChildren x) (componentToggle n) /\
  componentToggle n
  = match children n with
    | Some _ => [OnToggle (id n)]
    | None => []
    end.
Proof.
  assert (E : componentToggle n
              = match children n with
                | Some _ => [OnToggle (id n)]
                | None => []
                end).
  { unfold componentToggle, isLeaf, hasChildren.
    destruct (children n) as [ch|]; simpl.
    - now rewrite !andb_false_r.
    - reflexivity. }
  split; [|exact E]. rewrite E.
  destruct (children n); simpl; intuition discriminate.
Qed.

(** ** Renaming and toggling *)

(** [handleEdit] and [handleToggle] commute, for the same id or for
    different ids. *)
Theorem edit_and_toggle_commute (nodes : list TreeNode) (x y nm : string) :
  handleEdit (handleToggle nodes y) x nm = handleToggle (handleEdit nodes x nm) y.
Proof.
  unfold handleEdit, handleToggle.
  induction nodes as [|i nm' e l h rest IH|i nm' ch e l h rest IHch IH]
    using forest_ind; [reflexivity| |].
  - rewrite (updateNode_leaf y), (updateNode_leaf x), !updateNode_cons, IH.
    f_equal.
    destruct (i =? y) eqn:Ey, (i =? x) eqn:Ex; simpl; rewrite ?Ey, ?Ex;
      reflexivity.
  - rewrite (updateNode_branch y), (updateNode_branch x), !updateNode_cons, IH.
    f_equal.
    destruct (i =? y) eqn:Ey, (i =? x) eqn:Ex; simpl; rewrite ?Ey, ?Ex;
      try reflexivity.
    f_equal. f_equal. exact IHch.
Qed.

(** Looking a node up after [handleToggle] or [handleEdit]: it is the
    node found before with isExpanded negated (true when the field was
    absent), respectively with the new name. *)
Theorem toggle_and_edit_found_node (nodes : list TreeNode) (x nm : string)
        (n : TreeNode) :
  nodeAt nodes x = Some n ->
  nodeAt (handleToggle nodes x) x
  = Some (mkNode (id n) (name n) (children n)
                 (Some (negb (truthy (isExpanded n)))) (isLoading n)
                 (hasLoaded n)) /\
  nodeAt (handleEdit nodes x nm) x
  = Some (mkNode (id n) nm (children n) (isExpanded n) (isLoading n)
                 (hasLoaded n)).
Proof.
  intros H. split.
  - apply (nodeAt_updateNode x
             (fun node => with_isExpanded node (negb (truthy (isExpanded node)))));
      [reflexivity | exact H].
  - apply (nodeAt_updateNode x (fun node => with_name node nm));
      [reflexivity | exact H].
Qed.

Lemma toggle_and_edit_found_node_witness :
  nodeAt (handleToggle sampleForest "Q") "Q"
  = Some (mkNode "Q" "Projects" None (Some true) None None).
Proof.
  exact (proj1 (toggle_and_edit_found_node sampleForest "Q" "z"
                  (mkNode "Q" "Projects" None None None None) eq_refl)).
Defined.

(** ** Loaded children *)

(** When a node is shown and its load resolves, the fetched nodes are
    shown under it: [loadResolved] expands the node. *)
Theorem loaded_children_are_shown (nodes : list TreeNode) (x : string)
        (fetched : list TreeNode) :
  In x (getFlatNodeIds nodes) ->
  incl (map id fetched) (getFlatNodeIds (loadResolved nodes x fetched)).
Proof.
  unfold getFlatNodeIds, loadResolved. rewrite !collectIds_spec. simpl.
  induction nodes as [|i nm e l h rest IH|i nm ch e l h rest IHch IH]
    using forest_ind.
  - intros [].
  - rewrite visible_leaf, updateNode_leaf, visible_cons. intros H y Hy.
    apply in_or_app. destruct (String.eqb_spec i x) as [->|Hi].
    + left. unfold with_isExpanded, with_hasLoaded, with_isLoading,
        with_children. simpl id. simpl name. simpl children.
      rewrite sortableIds_branch. right. simpl. now apply roots_visible.
    + right. apply IH; [|exact Hy]. destruct H as [H|H]; [contradiction | exact H].
  - rewrite visible_branch, updateNode_branch, visible_cons. intros H y Hy.
    apply in_or_app. destruct (String.eqb_spec i x) as [->|Hi].
    + left. unfold with_isExpanded, with_hasLoaded, with_isLoading,
        with_children. simpl id. simpl name. simpl children.
      rewrite sortableIds_branch. right. simpl. now apply roots_visible.
    + destruct H as [H|H]; [contradiction|].
      apply in_app_or in H. destruct H as [H|H].
      * left. rewrite sortableIds_branch. right.
        destruct (truthy e); [now apply IHch | contradiction].
      * right. now apply IH.
Qed.

Lemma loaded_children_are_shown_witness :
  incl ["k1"; "k2"]
       (getFlatNodeIds (loadResolved sampleForest "Q" (simulateLazyLoad "k1" "k2"))).
Proof.
  apply (loaded_children_are_shown sampleForest "Q" (simulateLazyLoad "k1" "k2")).
  simpl. auto.
Defined.

End TreeFacts.

(** * Both engines *)

(** C5. An id that occurs nowhere in a snapshot makes every edit, delete
    and move a no-op, as it does an add under a column or parent with that
    id: the handlers return a snapshot equal to their input.  None of them
    has a failing path; the one handler that dereferences array elements,
    the tree's [handleDragEnd], returns without throwing. *)
Theorem noop_on_missing_id (columns : list Kanban.Column)
        (nodes : list Tree.TreeNode) (x : string) :
  ~ In x (Kanban.cardIds columns) ->
  ~ In x (Kanban.columnIds columns) ->
  ~ In x (Tree.ids nodes) ->
  (forall t, Kanban.handleEditCard columns x t = columns) /\
  Kanban.handleDeleteCard columns x = columns /\
  (forall over, Kanban.handleDragEnd columns x over = columns) /\
  (forall a, Kanban.handleDragEnd columns a (Some x) = columns) /\
  (forall newId t, Kanban.handleAddCard columns newId x t = columns) /\
  Tree.handleToggle nodes x = nodes /\
  (forall nm, Tree.handleEdit nodes x nm = nodes) /\
  Tree.handleDelete nodes x = nodes /\
  (forall over, Tree.handleDragEnd nodes x over = Returned nodes) /\
  (forall a, Tree.handleDragEnd nodes a (Some x) = Returned nodes) /\
  (forall newId nm, Tree.handleAddChild nodes newId x nm = nodes).
Proof.
  intros Hcard Hcol Hnode. repeat split; intros.
  - now apply KanbanFacts.handleEditCard_missing.
  - now apply KanbanFacts.handleDeleteCard_missing.
  - now apply KanbanFacts.dragCard_missing_active.
  - now apply KanbanFacts.dragCard_missing_over.
  - now apply KanbanFacts.handleAddCard_missing.
  - now apply TreeFacts.updateNode_missing.
  - now apply TreeFacts.updateNode_missing.
  - now apply TreeFacts.deleteNode_missing.
  - now apply TreeFacts.dragNode_missing_active.
  - now apply TreeFacts.dragNode_missing_over.
  - unfold Tree.handleAddChild. rewrite TreeFacts.addChildNode_updateNode.
    now apply TreeFacts.updateNode_missing.
Qed.

Lemma noop_on_missing_id_witness :
  let columns := [Kanban.Column.mk "todo" "Todo" [Kanban.Card.mk "c1" "a"]] in
  let nodes := [Tree.mkNode "n1" "Docs" (Some [Tree.mkNode "n2" "Work" None None None None])
                            None None None] in
  Kanban.handleDeleteCard columns "zz" = columns /\
  Tree.handleDelete nodes "zz" = nodes /\
  Tree.handleDragEnd nodes "zz" (Some "n1") = Returned nodes.
Proof.
  intros columns nodes.
  assert (H1 : ~ In "zz" (Kanban.cardIds columns))
    by (simpl; intuition discriminate).
  assert (H2 : ~ In "zz" (Kanban.columnIds columns))
    by (simpl; intuition discriminate).
  assert (H3 : ~ In "zz" (Tree.ids nodes))
    by (simpl; intuition discriminate).
  destruct (noop_on_missing_id columns nodes "zz" H1 H2 H3)
    as (_ & Hd & _ & _ & _ & _ & _ & Hn & Hm & _).
  split; [exact Hd | split; [exact Hn | exact (Hm (Some "n1"))]].
Defined.
